(** * The feed directory component (src/App.tsx) and its earlier revision

    A shallow embedding of the logic of [FeedDirectory]: the row
    sanitisation run by the parse-complete handler, the live title filter,
    the two link helpers and the one asynchronous load, followed by the
    properties of the directory's specification.

    JavaScript strings are sequences of UTF-16 code units, so a string is a
    [list N]; the built-in string methods the component calls are modelled
    after ECMA-262.  The host (the URL constructor, the build-time base
    path, [fetch], the CSV parser and the engine's Unicode character data)
    is a parameter. *)

From Stdlib Require Import NArith String Ascii.
From stdpp Require Import base option list gmap strings numbers.

Local Open Scope N_scope.

(** ** JavaScript values and built-ins *)

Module JS.

(** A string value: its UTF-16 code units, in order. *)
Abbreviation jsstring := (list N).

(** A literal of the source text (all of them are ASCII). *)
Definition lit (s : string) : jsstring :=
  N_of_ascii <$> list_ascii_of_string s.

(** ToBoolean on a string: only the empty string is falsy. *)
Definition truthy (s : jsstring) : bool :=
  match s with [] => false | _ :: _ => true end.

(** [v || d] where [v] is a property that may be undefined and [d] is a
    string: [undefined] and [''] are falsy and give [d]. *)
Definition or_else (v : option jsstring) (d : jsstring) : jsstring :=
  match v with
  | Some (c :: s) => c :: s
  | Some [] | None => d
  end.

(** [typeof v === 'string'] on a value statically known to be a string. *)
Definition typeof_is_string (_ : jsstring) : bool := true.

(** String.prototype.startsWith, position 0. *)
Fixpoint startsWith (s search : jsstring) : bool :=
  match search, s with
  | [], _ => true
  | _ :: _, [] => false
  | c :: search', d :: s' => (c =? d) && startsWith s' search'
  end.

(** String.prototype.includes, position 0: the first index at which
    [search] occurs is looked for from the left. *)
Fixpoint includes (s search : jsstring) : bool :=
  startsWith s search ||
  match s with
  | [] => false
  | _ :: s' => includes s' search
  end.

(** *** Number to string *)

Fixpoint digits (d : Decimal.uint) : jsstring :=
  match d with
  | Decimal.Nil => []
  | Decimal.D0 d => 48 :: digits d
  | Decimal.D1 d => 49 :: digits d
  | Decimal.D2 d => 50 :: digits d
  | Decimal.D3 d => 51 :: digits d
  | Decimal.D4 d => 52 :: digits d
  | Decimal.D5 d => 53 :: digits d
  | Decimal.D6 d => 54 :: digits d
  | Decimal.D7 d => 55 :: digits d
  | Decimal.D8 d => 56 :: digits d
  | Decimal.D9 d => 57 :: digits d
  end.

(** A non-negative integer inside a template literal (an array index, an
    HTTP status): its decimal digits. *)
Definition number_to_string (n : N) : jsstring := digits (N.to_uint n).

(** *** Code units and code points *)

Definition in_range (lo hi c : N) : bool := (lo <=? c) && (c <=? hi).

Definition is_high_surrogate (c : N) : bool := in_range 0xD800 0xDBFF c.
Definition is_low_surrogate (c : N) : bool := in_range 0xDC00 0xDFFF c.

(** The code point of a surrogate pair. *)
Definition pair_code_point (hi lo : N) : N :=
  (hi - 0xD800) * 0x400 + (lo - 0xDC00) + 0x10000.

(** StringToCodePoints: a high surrogate followed by a low one is read as
    one code point, any other unit (an unpaired surrogate too) as itself. *)
Fixpoint code_points (s : jsstring) : list N :=
  match s with
  | [] => []
  | c :: rest =>
      if is_high_surrogate c then
        match rest with
        | d :: rest' =>
            if is_low_surrogate d
            then pair_code_point c d :: code_points rest'
            else c :: code_points rest
        | [] => [c]
        end
      else c :: code_points rest
  end.

(** UTF16EncodeCodePoint *)
Definition code_units (cp : N) : jsstring :=
  if cp <? 0x10000 then [cp]
  else [0xD800 + (cp - 0x10000) / 0x400; 0xDC00 + (cp - 0x10000) mod 0x400].

(** CodePointsToString *)
Definition from_code_points (cps : list N) : jsstring := cps ≫= code_units.

(** *** Case mapping

    String.prototype.toLowerCase reads the string as code points and
    applies the Unicode default lower-case conversion: every character is
    replaced by its Lowercase_Mapping (one character, or more for a few),
    except GREEK CAPITAL LETTER SIGMA (U+03A3), which becomes the final
    form U+03C2 where the Final_Sigma condition of SpecialCasing.txt holds.

    The character data is the engine's version of the Unicode Character
    Database: the properties Cased and Case_Ignorable, which the condition
    reads, and the language-independent Lowercase_Mapping. *)

Class Unicode := {
  Cased : N → bool;
  Case_Ignorable : N → bool;
  Lowercase_Mapping : N → list N
}.

Definition SIGMA : N := 0x3A3.
Definition small_final_sigma : N := 0x3C2.

Section CaseConversion.
Context {unicode : Unicode}.

(** Zero or more case-ignorable characters, then a cased letter. *)
Fixpoint reaches_cased (s : list N) : bool :=
  match s with
  | [] => false
  | c :: s' => Cased c || (Case_Ignorable c && reaches_cased s')
  end.

(** Final_Sigma, for the sigma between [before] (nearest character
    first) and [after]. *)
Definition final_sigma (before after : list N) : bool :=
  reaches_cased before && negb (reaches_cased after).

(** The lower-case conversion of a sequence of code points that follows
    [before]. *)
Fixpoint lower_from (before s : list N) : list N :=
  match s with
  | [] => []
  | c :: s' =>
      (if (c =? SIGMA) && final_sigma before s'
       then [small_final_sigma]
       else Lowercase_Mapping c)
      ++ lower_from (c :: before) s'
  end.

Definition toLowerCase (s : jsstring) : jsstring :=
  from_code_points (lower_from [] (code_points s)).

End CaseConversion.

(** *** Thrown values and completions *)

Inductive Thrown :=
| ErrorObject (name message : jsstring)  (* an instance of Error *)
| OtherObject (message : option jsstring) (* any other non-nullish value,
                                             with its [message] property
                                             as a template prints it *)
| Nullish.                                (* null or undefined *)

Inductive Completion (A : Type) :=
| Normal (a : A)
| Throw (e : Thrown).
Global Arguments Normal {A} a.
Global Arguments Throw {A} e.

(** Sequencing of completions: the first abrupt one is the result. *)
Global Instance Completion_ret : MRet Completion := λ A a, Normal a.
Global Instance Completion_bind : MBind Completion := λ A B f c,
  match c with
  | Normal a => f a
  | Throw e => Throw e
  end.
Global Instance Completion_fmap : FMap Completion := λ A B f c,
  match c with
  | Normal a => Normal (f a)
  | Throw e => Throw e
  end.

(** [try { body } catch (e) { handler }] *)
Definition try_catch {A} (body : Completion A)
    (handler : Thrown → Completion A) : Completion A :=
  match body with
  | Normal a => Normal a
  | Throw e => handler e
  end.

Definition URIError : Thrown :=
  ErrorObject (lit "URIError") (lit "URI malformed").

(** Array.prototype.map with a callback [(element, index) => ...] that may
    throw: elements are visited in index order. *)
Fixpoint map_from {A B} (f : A → N → Completion B) (index : N)
    (l : list A) : Completion (list B) :=
  match l with
  | [] => Normal []
  | x :: l' =>
      y ← f x index;
      ys ← map_from f (N.succ index) l';
      Normal (y :: ys)
  end.

Definition Array_map {A B} (f : A → N → Completion B) (l : list A) :
    Completion (list B) :=
  map_from f 0 l.

(** *** UTF-8 and encodeURIComponent *)

(** The UTF-8 octets of a code point. *)
Definition utf8_octets (cp : N) : list N :=
  if cp <? 0x80 then [cp]
  else if cp <? 0x800 then
    [N.lor 0xC0 (N.shiftr cp 6); N.lor 0x80 (N.land cp 0x3F)]
  else if cp <? 0x10000 then
    [N.lor 0xE0 (N.shiftr cp 12);
     N.lor 0x80 (N.land (N.shiftr cp 6) 0x3F);
     N.lor 0x80 (N.land cp 0x3F)]
  else
    [N.lor 0xF0 (N.shiftr cp 18);
     N.lor 0x80 (N.land (N.shiftr cp 12) 0x3F);
     N.lor 0x80 (N.land (N.shiftr cp 6) 0x3F);
     N.lor 0x80 (N.land cp 0x3F)].

Definition hex_digit (n : N) : N :=
  if n <? 10 then 48 + n else 55 + n.

(** One octet as [%XX], upper-case hexadecimal. *)
Definition escape_octet (b : N) : jsstring :=
  [37; hex_digit (b / 16); hex_digit (b mod 16)].

(** The characters encodeURIComponent leaves alone: ASCII letters and
    digits and [- _ . ! ~ * ' ( )]. *)
Definition uri_unescaped (c : N) : bool :=
  in_range 0x41 0x5A c || in_range 0x61 0x7A c || in_range 0x30 0x39 c
  || (c =? 0x2D) || (c =? 0x5F) || (c =? 0x2E) || (c =? 0x21)
  || (c =? 0x7E) || (c =? 0x2A) || (c =? 0x27) || (c =? 0x28)
  || (c =? 0x29).

(** The Encode operation of ECMA-262 with the component's unescaped set:
    left to right, an unescaped unit is copied, anything else is read as
    a code point (two units for a surrogate pair), an unpaired surrogate
    raises URIError, and the code point's UTF-8 octets are escaped. *)
Fixpoint encodeURIComponent (s : jsstring) : Completion jsstring :=
  match s with
  | [] => Normal []
  | c :: rest =>
      if uri_unescaped c then
        r ← encodeURIComponent rest; Normal (c :: r)
      else if is_low_surrogate c then Throw URIError
      else if is_high_surrogate c then
        match rest with
        | d :: rest' =>
            if is_low_surrogate d then
              r ← encodeURIComponent rest';
              Normal ((utf8_octets (pair_code_point c d) ≫= escape_octet) ++ r)
            else Throw URIError
        | [] => Throw URIError
        end
      else
        r ← encodeURIComponent rest;
        Normal ((utf8_octets c ≫= escape_octet) ++ r)
  end.

(** [String(v)] on a string. *)
Definition String_ (v : jsstring) : jsstring := v.

End JS.

Import JS.

(** ** The host *)

(** What the component reads of a parsed URL. *)
Record URL := { href : jsstring; hostname : jsstring }.

(** The page's platform: the base path fixed at build time
    ([import.meta.env.BASE_URL]) and the URL constructor, which throws a
    TypeError on input it cannot parse. *)
Class Platform := {
  BASE_URL : jsstring;
  new_URL : jsstring → Completion URL
}.

(** A fetch response: [text] is how the promise of [response.text()]
    settles. *)
Record Response := {
  ok : bool;
  status : N;
  text : Completion jsstring
}.

(** One entry of [results.errors]: its type, code and message. *)
Record ParseError := {
  type : jsstring;
  code : jsstring;
  message : jsstring
}.

(** interface PapaParseResult *)
Record PapaParseResult := {
  data : list (gmap string jsstring);
  errors : list ParseError;
  meta : list string
}.

(** What a call of [Papa.parse] does with the configuration it is given:
    it invokes [complete] with the results, invokes [error] with an Error,
    or throws. *)
Inductive ParseOutcome :=
| CallsComplete (results : PapaParseResult)
| CallsError (error_message : jsstring)
| ParseThrows (e : Thrown).

(** The world of one page load. [fetch] and [readFile] give how their
    promises settle. *)
Record World := {
  fetch : jsstring → Completion Response;
  window_fs : option (jsstring → Completion jsstring);
  Papa_parse : jsstring → ParseOutcome
}.

(** ** The component's state and effects *)

(** The four [useState] cells; [F] is the type of a feed entry. *)
Record Component (F : Type) := {
  feeds : list F;
  loading : bool;
  error : option jsstring;
  searchTerm : jsstring
}.
Arguments feeds {F} _.
Arguments loading {F} _.
Arguments error {F} _.
Arguments searchTerm {F} _.

(** Requests the page makes of its world, in the order made. Console
    output is not recorded. *)
Inductive Event :=
| Fetched (url : jsstring)
| FileRead (path : jsstring)
| Parsed (input : jsstring).

Record Store (F : Type) := {
  view : Component F;
  trace : list Event
}.
Arguments view {F} _.
Arguments trace {F} _.

(** A computation of the component: it reads and writes the store and
    completes normally or abruptly; what was written before a throw
    stays written. *)
Definition M (F A : Type) : Type := Store F → Completion A * Store F.

Global Instance M_ret {F} : MRet (M F) := λ A a σ, (Normal a, σ).
Global Instance M_bind {F} : MBind (M F) := λ A B f m σ,
  match m σ with
  | (Normal a, σ') => f a σ'
  | (Throw e, σ') => (Throw e, σ')
  end.

Definition lift {F A} (c : Completion A) : M F A := λ σ, (c, σ).

Definition throw {F A} (e : Thrown) : M F A := lift (Throw e).

Definition try_catch_M {F A} (body : M F A) (handler : Thrown → M F A) :
    M F A := λ σ,
  match body σ with
  | (Normal a, σ') => (Normal a, σ')
  | (Throw e, σ') => handler e σ'
  end.

Definition emit {F} (ev : Event) : M F unit := λ σ,
  (Normal (), {| view := view σ; trace := trace σ ++ [ev] |}).

Definition update {F} (f : Component F → Component F) : M F unit := λ σ,
  (Normal (), {| view := f (view σ); trace := trace σ |}).

Definition setFeeds {F} (fs : list F) : M F unit :=
  update (λ c, {| feeds := fs; loading := loading c; error := error c;
                  searchTerm := searchTerm c |}).

Definition setLoading {F} (b : bool) : M F unit :=
  update (λ c, {| feeds := feeds c; loading := b; error := error c;
                  searchTerm := searchTerm c |}).

Definition setError {F} (msg : jsstring) : M F unit :=
  update (λ c, {| feeds := feeds c; loading := loading c; error := Some msg;
                  searchTerm := searchTerm c |}).

Definition setSearchTerm {F} (s : jsstring) : M F unit :=
  update (λ c, {| feeds := feeds c; loading := loading c; error := error c;
                  searchTerm := s |}).

(** The state at mount. *)
Definition mounted {F} : Store F :=
  {| view := {| feeds := []; loading := true; error := None;
                searchTerm := [] |};
     trace := [] |}.

(** [await fetch(url)] *)
Definition await_fetch {F} (w : World) (url : jsstring) : M F Response :=
  emit (Fetched url);; lift (fetch w url).

(** [Papa.parse(input, { header: true, skipEmptyLines: true, complete,
    error })] on a string: the parser runs and calls back before it
    returns. *)
Definition Papa_parse_with {F} (w : World) (input : jsstring)
    (complete : PapaParseResult → M F unit)
    (error : jsstring → M F unit) : M F unit :=
  emit (Parsed input);;
  match Papa_parse w input with
  | CallsComplete results => complete results
  | CallsError error_message => error error_message
  | ParseThrows e => throw e
  end.

(** ** src/App.tsx *)

Module App.

(** interface Feed *)
Record Feed := {
  id : jsstring;
  feed_title : jsstring;
  feed_url : jsstring;
  website_url : jsstring;
  favicon_url : option jsstring
}.

Section FeedDirectory.
Context {platform : Platform}.

Definition getFaviconUrl (websiteUrl : jsstring) : Completion jsstring :=
  returned ← try_catch
    (if truthy websiteUrl then
       url ← new_URL (if startsWith websiteUrl (lit "http") then websiteUrl
                      else lit "https://" ++ websiteUrl);
       Normal (Some (lit "https://www.google.com/s2/favicons?domain="
                     ++ hostname url))
     else Normal None)
    (λ e, Normal None);
  match returned with
  | Some favicon => Normal favicon
  | None => Normal (BASE_URL ++ lit "default-favicon.png")
  end.

(** The value bound to [sanitizedFeeds] in the [complete] handler. *)
Definition sanitizedFeeds (rows : list (gmap string jsstring)) :
    Completion (list Feed) :=
  mapped ← Array_map (λ (feed : gmap string jsstring) (index : N),
    let websiteUrl := or_else (feed !! "website_url"%string) [] in
    favicon ← getFaviconUrl websiteUrl;
    Normal {|
      id := or_else (feed !! "feed_url"%string)
                    (lit "feed-" ++ number_to_string index);
      feed_title := or_else (feed !! "feed_title"%string)
                            (lit "Untitled Feed");
      feed_url := or_else (feed !! "feed_url"%string) [];
      website_url := websiteUrl;
      favicon_url := Some favicon
    |}) rows;
  Normal (filter (λ feed : Feed, truthy (feed_url feed)) mapped).

Definition complete (results : PapaParseResult) : M Feed unit :=
  sanitized ← lift (sanitizedFeeds (data results));
  setFeeds sanitized;;
  setLoading false.

Definition error_callback (error_message : jsstring) : M Feed unit :=
  setError (lit "Error parsing CSV: " ++ error_message);;
  setLoading false.

Definition loadFeeds (w : World) : M Feed unit :=
  try_catch_M
    (response ← await_fetch w (BASE_URL ++ lit "feeds_deduped.csv");
     if negb (ok response) then
       throw (ErrorObject (lit "Error")
                (lit "HTTP error! status: "
                 ++ number_to_string (status response)))
     else
       fileData ← lift (text response);
       Papa_parse_with w fileData complete error_callback)
    (λ err,
       setError (lit "Error loading or processing feeds: "
                 ++ match err with
                    | ErrorObject _ message => message
                    | OtherObject _ | Nullish => lit "Unknown error"
                    end
                 ++ lit ". Ensure 'feeds_deduped.csv' is accessible.");;
       setLoading false).

End FeedDirectory.

Definition filteredFeeds {unicode : Unicode} (feeds : list Feed)
    (searchTerm : jsstring) : list Feed :=
  filter (λ feed : Feed,
            truthy (feed_title feed)
            && typeof_is_string (feed_title feed)
            && includes (toLowerCase (feed_title feed))
                        (toLowerCase searchTerm))
         feeds.

Definition getInoreaderUrl (feedUrl : jsstring) : Completion jsstring :=
  encoded ← encodeURIComponent (String_ feedUrl);
  Normal (lit "https://www.inoreader.com/search/feeds/" ++ encoded).

(** The search box's change handler. *)
Definition onChange (value : jsstring) : M Feed unit := setSearchTerm value.

(** *** The view

    What the render function returns, as the values it puts into the
    markup. *)

(** An [<a>] button: its [href] and [title] attributes. *)
Record Anchor := {
  anchor_href : jsstring;
  anchor_title : jsstring
}.

(** One row of the list: the React key, the favicon image's [src] and the
    [src] its [onError] handler falls back to, the heading, and the two
    conditional buttons. *)
Record Row := {
  key : jsstring;
  img_src : option jsstring;
  img_fallback : jsstring;
  heading : jsstring;
  subscribe : option Anchor;
  visit : option Anchor
}.

(** The list area: the empty-state message or the rows. *)
Inductive Listing :=
| NoRows (message : jsstring)
| Rows (rows : list Row).

(** The page: the count in the subtitle, the search box's value, the list
    area and the footer ("Showing: n of m feeds", with "(filtered)" when
    flagged). *)
Record Page := {
  subtitle_count : nat;
  search_value : jsstring;
  listing : Listing;
  showing : nat;
  of_total : nat;
  filtered_note : bool
}.

(** The three returns of the render function: the loading notice, the
    error banner with its message, the directory page. *)
Inductive Screen :=
| LoadingScreen
| ErrorBanner (message : jsstring)
| Directory (page : Page).

Section View.
Context {platform : Platform} {unicode : Unicode}.

(** The callback of [filteredFeeds.map]. *)
Definition render_row (feed : Feed) : Completion Row :=
  subscribe_button ←
    (if truthy (feed_url feed) then
       href ← getInoreaderUrl (feed_url feed);
       Normal (Some {| anchor_href := href;
                       anchor_title := lit "Subscribe to " ++ feed_title feed
                                       ++ lit " in Inoreader" |})
     else Normal None);
  Normal {|
    key := if truthy (id feed) then id feed else feed_url feed;
    img_src := favicon_url feed;
    img_fallback := BASE_URL ++ lit "default-favicon.png";
    heading := feed_title feed;
    subscribe := subscribe_button;
    visit := if truthy (website_url feed)
             then Some {| anchor_href := website_url feed;
                          anchor_title := lit "Visit website for "
                                          ++ feed_title feed |}
             else None
  |}.

(** The third return: the counts, the search box and the list area, whose
    rows [filteredFeeds.map] builds in order. *)
Definition directory_page (c : Component Feed) : Completion Page :=
  let filtered := filteredFeeds (feeds c) (searchTerm c) in
  list_area ←
    (if (length filtered =? 0)%nat then
       Normal (NoRows (if truthy (searchTerm c)
                       then lit "No feeds found matching your search."
                       else lit "No feeds available."))
     else
       rows ← Array_map (λ feed _, render_row feed) filtered;
       Normal (Rows rows));
  Normal {|
    subtitle_count := length (feeds c);
    search_value := searchTerm c;
    listing := list_area;
    showing := length filtered;
    of_total := length (feeds c);
    filtered_note := truthy (searchTerm c)
  |}.

(** The render function: [if (loading)], [if (error)], and the directory,
    whose rows are built while it is returned. *)
Definition render (c : Component Feed) : Completion Screen :=
  if loading c then Normal LoadingScreen
  else match error c with
       | Some (u :: message) => Normal (ErrorBanner (u :: message))
       | Some [] | None =>
           page ← directory_page c;
           Normal (Directory page)
       end.

End View.

End App.

(** ** The earlier revision of the component (src/unnamed/part_000) *)

Module Part000.

Record Feed := {
  id : jsstring;
  feed_title : jsstring;
  feed_url : jsstring;
  website_url : jsstring
}.

Definition sanitizedFeeds (rows : list (gmap string jsstring)) : list Feed :=
  filter (λ feed : Feed, truthy (feed_url feed))
    (imap (λ (index : nat) (feed : gmap string jsstring), {|
       id := or_else (feed !! "feed_url"%string)
                     (lit "feed-" ++ number_to_string (N.of_nat index));
       feed_title := or_else (feed !! "feed_title"%string)
                             (lit "Untitled Feed");
       feed_url := or_else (feed !! "feed_url"%string) [];
       website_url := or_else (feed !! "website_url"%string) []
     |}) rows).

Definition complete (results : PapaParseResult) : M Feed unit :=
  setFeeds (sanitizedFeeds (data results));;
  setLoading false.

Definition error_callback (error_message : jsstring) : M Feed unit :=
  setError (lit "Error parsing CSV: " ++ error_message);;
  setLoading false.

(** [`${err.message}`] in the catch clause: reading [message] off null or
    undefined is itself a TypeError. *)
Definition message_of (err : Thrown) : Completion jsstring :=
  match err with
  | ErrorObject _ message => Normal message
  | OtherObject (Some message) => Normal message
  | OtherObject None => Normal (lit "undefined")
  | Nullish =>
      Throw (ErrorObject (lit "TypeError")
               (lit "Cannot read properties of undefined (reading 'message')"))
  end.

Definition loadFeeds (w : World) : M Feed unit :=
  try_catch_M
    (fileData ←
       match window_fs w with
       | Some readFile =>
           emit (FileRead (lit "feeds_deduped.csv"));;
           lift (readFile (lit "feeds_deduped.csv"))
       | None =>
           response ← await_fetch w (lit "/feeds_deduped.csv");
           if negb (ok response) then
             throw (ErrorObject (lit "Error")
                      (lit "HTTP error! status: "
                       ++ number_to_string (status response)))
           else lift (text response)
       end;
     Papa_parse_with w fileData complete error_callback)
    (λ err,
       message ← lift (message_of err);
       setError (lit "Error loading or processing feeds: " ++ message
                 ++ lit ". Ensure 'feeds_deduped.csv' is accessible.");;
       setLoading false).

Definition filteredFeeds {unicode : Unicode} (feeds : list Feed)
    (searchTerm : jsstring) : list Feed :=
  filter (λ feed : Feed,
            truthy (feed_title feed)
            && typeof_is_string (feed_title feed)
            && includes (toLowerCase (feed_title feed))
                        (toLowerCase searchTerm))
         feeds.

Definition getInoreaderUrl (feedUrl : jsstring) : Completion jsstring :=
  encoded ← encodeURIComponent (String_ feedUrl);
  Normal (lit "https://www.inoreader.com/search/feeds/" ++ encoded).

(** This revision's favicon helper answers [null] ([None]) where it has no
    URL to give; nothing in the revision calls it. *)
Definition getFaviconUrl {platform : Platform} (websiteUrl : jsstring) :
    Completion (option jsstring) :=
  if negb (truthy websiteUrl) then Normal None
  else
    try_catch
      (url ← new_URL websiteUrl;
       let domain := hostname url in
       Normal (Some (lit "https://external-content.duckduckgo.com/ip3/"
                     ++ domain ++ lit ".ico")))
      (λ error, Normal None).

End Part000.

(** ** Vocabulary of the specification *)

(** A well-formed UTF-16 string: every surrogate is one half of a pair. *)
Fixpoint well_formed (s : jsstring) : bool :=
  match s with
  | [] => true
  | c :: rest =>
      if is_low_surrogate c then false
      else if is_high_surrogate c then
        match rest with
        | d :: rest' => is_low_surrogate d && well_formed rest'
        | [] => false
        end
      else well_formed rest
  end.

(** Percent-encoding of an octet sequence: an octet that is an unreserved
    character stands for itself, any other is written [%XX]. *)
Definition percent_encode (octets : list N) : jsstring :=
  octets ≫= λ b, if uri_unescaped b then [b] else escape_octet b.

(** The percent-encoding of a string: that of its UTF-8 form. *)
Definition percent_encoding (s : jsstring) : jsstring :=
  percent_encode (code_points s ≫= utf8_octets).

(** [t] occurs in [s] as a contiguous run of units. *)
Definition occurs_in (t s : jsstring) : Prop :=
  ∃ before after, s = before ++ t ++ after.

(** Two characters are the same letter up to case: the database gives
    them the same lower case. *)
Definition same_letter {unicode : Unicode} (c d : N) : Prop :=
  Lowercase_Mapping c = Lowercase_Mapping d.

(** A title contains a search string ignoring case when some run of the
    title's characters agrees with the characters of the search string one
    by one, up to case. *)
Definition contains_ignoring_case {unicode : Unicode}
    (title search : jsstring) : Prop :=
  ∃ before run after,
    code_points title = before ++ run ++ after
    ∧ Forall2 same_letter run (code_points search).

(** A Unicode scalar value: a code point that is not a surrogate. *)
Definition scalar_value (c : N) : bool :=
  (c <? 0x110000) && negb (is_high_surrogate c) && negb (is_low_surrogate c).

(** A character with one character as its lower case whatever stands next
    to it: it is not the capital sigma and its Lowercase_Mapping is a single
    scalar value.  A string is [letterwise] when all its characters are. *)
Definition single_letter {unicode : Unicode} (c : N) : bool :=
  negb (c =? SIGMA)
  && match Lowercase_Mapping c with
     | [d] => scalar_value d
     | _ => false
     end.

Definition letterwise {unicode : Unicode} (s : jsstring) : bool :=
  forallb single_letter (code_points s).

(** A character whose lower case is final: it is not the capital sigma,
    and every character of its Lowercase_Mapping is a scalar value other
    than the capital sigma that is its own lower case.  A string [settles]
    when all its characters do. *)
Definition settled_letter {unicode : Unicode} (c : N) : bool :=
  negb (c =? SIGMA)
  && forallb (λ d, negb (d =? SIGMA) && scalar_value d
                   && bool_decide (Lowercase_Mapping d = [d]))
             (Lowercase_Mapping c).

Definition settles {unicode : Unicode} (s : jsstring) : bool :=
  forallb settled_letter (code_points s).



(** The [feed_url] column of a row, empty when the column is missing. *)
Definition url_column (row : gmap string jsstring) : jsstring :=
  default [] (row !! "feed_url"%string).

(** The row has no usable value in a column: missing or empty. *)
Definition blank (row : gmap string jsstring) (column : string) : Prop :=
  row !! column = None ∨ row !! column = Some [].

(** The feeds a computation leaves in the collection. *)
Definition published {F} (run : M F unit) (σ : Store F) : list F :=
  feeds (view (run σ).2).

(** What [getFaviconUrl] hands back for a website URL. *)
Definition favicon_for {platform : Platform} (websiteUrl : jsstring) :
    jsstring :=
  match App.getFaviconUrl websiteUrl with
  | Normal favicon => favicon
  | Throw _ => []
  end.

(** The object the map step of the handler builds from a row. *)
Definition built_entry {platform : Platform} (index : nat)
    (row : gmap string jsstring) : App.Feed :=
  {| App.id := or_else (row !! "feed_url"%string)
                 (lit "feed-" ++ number_to_string (N.of_nat index));
     App.feed_title := or_else (row !! "feed_title"%string)
                         (lit "Untitled Feed");
     App.feed_url := or_else (row !! "feed_url"%string) [];
     App.website_url := or_else (row !! "website_url"%string) [];
     App.favicon_url :=
       Some (favicon_for (or_else (row !! "website_url"%string) [])) |}.

(** The same for the earlier revision. *)
Definition built_entry_000 (index : nat) (row : gmap string jsstring) :
    Part000.Feed :=
  {| Part000.id := or_else (row !! "feed_url"%string)
                     (lit "feed-" ++ number_to_string (N.of_nat index));
     Part000.feed_title := or_else (row !! "feed_title"%string)
                             (lit "Untitled Feed");
     Part000.feed_url := or_else (row !! "feed_url"%string) [];
     Part000.website_url := or_else (row !! "website_url"%string) [] |}.

(** The URL handed to the URL constructor: the website URL itself when it
    begins with [http], and otherwise prefixed with [https://]. *)
Definition with_scheme (websiteUrl : jsstring) : jsstring :=
  if decide (lit "http" `prefix_of` websiteUrl) then websiteUrl
  else lit "https://" ++ websiteUrl.

(** [kept] is [l] with exactly the elements satisfying [P] retained, in
    their order. *)
Inductive selection {A} (P : A → Prop) : list A → list A → Prop :=
| selection_nil : selection P [] []
| selection_keep x l kept :
    P x → selection P l kept → selection P (x :: l) (x :: kept)
| selection_drop x l kept :
    ¬ P x → selection P l kept → selection P (x :: l) kept.

(** An excerpt of the Unicode Character Database to run the filter on:
    Basic Latin, Latin-1 Supplement, the Greek letters alpha to omega, the
    Cyrillic letters U+0400 to U+045F, LATIN CAPITAL LETTER I WITH DOT ABOVE
    (U+0130, whose lower case is the two characters U+0069 U+0307),
    COMBINING DOT ABOVE, the single quotation marks U+2018 and U+2019 and,
    for the supplementary planes, the Deseret letters.  On every other
    character it holds no data: the character counts as uncased and as its
    own lower case. *)
Definition is_deseret_capital (c : N) : bool := in_range 0x10400 0x10427 c.

Definition is_upper (c : N) : bool :=
  in_range 0x41 0x5A c
  || in_range 0xC0 0xD6 c || in_range 0xD8 0xDE c
  || (c =? 0x130)
  || in_range 0x391 0x3A1 c || in_range 0x3A3 0x3A9 c
  || in_range 0x400 0x42F c
  || is_deseret_capital c.

Definition is_lower (c : N) : bool :=
  in_range 0x61 0x7A c
  || (c =? 0xAA) || (c =? 0xB5) || (c =? 0xBA)
  || in_range 0xDF 0xF6 c || in_range 0xF8 0xFF c
  || in_range 0x3B1 0x3C9 c
  || in_range 0x430 0x45F c
  || in_range 0x10428 0x1044F c.

Definition sample_case_ignorable (c : N) : bool :=
  (c =? 0x27) || (c =? 0x2E) || (c =? 0x3A) || (c =? 0x5E) || (c =? 0x60)
  || (c =? 0xA8) || (c =? 0xAD) || (c =? 0xAF)
  || (c =? 0xB4) || (c =? 0xB7) || (c =? 0xB8)
  || (c =? 0x307) || (c =? 0x2018) || (c =? 0x2019).

Definition sample_lowercase_mapping (c : N) : list N :=
  if c =? 0x130 then [0x69; 0x307]
  else if in_range 0x400 0x40F c then [c + 0x50]
  else if is_deseret_capital c then [c + 0x28]
  else if is_upper c then [c + 0x20]
  else [c].

Definition sample_unicode : Unicode :=
  {| Cased := λ c, is_upper c || is_lower c;
     Case_Ignorable := sample_case_ignorable;
     Lowercase_Mapping := sample_lowercase_mapping |}.

(** A platform to run the component on: base path [/feeds/] and a URL
    constructor that accepts [http://host] and [https://host], the host a
    non-empty run of letters, digits, dots and hyphens ended by the end of
    input or by the path, query or fragment, and rejects everything else
    (the constructor of a browser accepts more). *)
Definition host_end (c : N) : bool :=
  (c =? 0x2F) || (c =? 0x3F) || (c =? 0x23).

Definition host_char (c : N) : bool :=
  in_range 0x41 0x5A c || in_range 0x61 0x7A c || in_range 0x30 0x39 c
  || (c =? 0x2E) || (c =? 0x2D).

Fixpoint take_host (s : jsstring) : jsstring :=
  match s with
  | [] => []
  | c :: s' => if host_end c then [] else c :: take_host s'
  end.

Definition after_scheme (s : jsstring) : option jsstring :=
  if startsWith s (lit "https://") then Some (drop 8 s)
  else if startsWith s (lit "http://") then Some (drop 7 s)
  else None.

Definition invalid_URL : Thrown :=
  ErrorObject (lit "TypeError") (lit "Invalid URL").

Definition sample_new_URL (s : jsstring) : Completion URL :=
  match after_scheme s with
  | Some rest =>
      match take_host rest with
      | [] => Throw invalid_URL
      | c :: h =>
          if forallb host_char (c :: h)
          then Normal {| href := s;
                         hostname :=
                           toLowerCase (unicode := sample_unicode) (c :: h) |}
          else Throw invalid_URL
      end
  | None => Throw invalid_URL
  end.

Definition sample_platform : Platform :=
  {| BASE_URL := lit "/feeds/"; new_URL := sample_new_URL |}.

(** Rows of a parsed CSV, as objects keyed by column name. *)
Definition row_of (columns : list (string * string)) : gmap string jsstring :=
  list_to_map (prod_map (λ k, k) lit <$> columns).

Definition acme_row : gmap string jsstring :=
  row_of [("feed_title", "ACME News"); ("feed_url", "http://a.com/rss")]%string.

Definition other_row : gmap string jsstring :=
  row_of [("feed_title", "Other"); ("feed_url", "http://b.com/rss")]%string.

(** A row whose title is the Greek word alpha-sigma-alpha in capitals. *)
Definition greek_row : gmap string jsstring :=
  <["feed_title"%string := [0x391; 0x3A3; 0x391]]>
    (row_of [("feed_url", "http://g.gr/rss")]%string).

(** A row whose title is the one letter DESERET CAPITAL LETTER LONG I
    (U+10400), a surrogate pair. *)
Definition deseret_row : gmap string jsstring :=
  <["feed_title"%string := [0xD801; 0xDC00]]>
    (row_of [("feed_url", "http://d.org/rss")]%string).


(** How many times a trace fetches. *)
Definition is_fetch (ev : Event) : bool :=
  match ev with
  | Fetched _ => true
  | FileRead _ | Parsed _ => false
  end.

Definition fetches (τ : list Event) : nat :=
  length (filter (λ ev, is_fetch ev) τ).

(** The message the catch clause of [loadFeeds] publishes for a thrown
    value. *)
Definition load_error_message (err : Thrown) : jsstring :=
  lit "Error loading or processing feeds: "
  ++ match err with
     | ErrorObject _ message => message
     | OtherObject _ | Nullish => lit "Unknown error"
     end
  ++ lit ". Ensure 'feeds_deduped.csv' is accessible.".

(** The view after a failed load from [c]: the message is up, the loading
    flag is down and the feeds are as they were. *)
Definition failed {F} (c : Component F) (msg : jsstring) : Component F :=
  {| feeds := feeds c; loading := false; error := Some msg;
     searchTerm := searchTerm c |}.

(** A CSV text whose last record opens a quoted field and never closes
    it. *)
Definition unterminated_csv : jsstring :=
  lit "feed_title,feed_url" ++ [10]
  ++ lit "ACME News,http://a.com/rss" ++ [10]
  ++ [34] ++ lit "Other,http://b.com/rss" ++ [10].

(** What the parser reports for it: the record before the quote, the rest
    of the input as one field, and the errors it found. *)
Definition unterminated_results : PapaParseResult :=
  {| data := [acme_row;
              {[ "feed_title"%string := lit "Other,http://b.com/rss" ++ [10] ]}];
     errors := [ {| type := lit "Quotes"; code := lit "MissingQuotes";
                    message := lit "Quoted field unterminated" |};
                 {| type := lit "FieldMismatch"; code := lit "TooFewFields";
                    message :=
                      lit "Too few fields: expected 2 fields but parsed 1" |} ];
     meta := ["feed_title"; "feed_url"]%string |}.

(** A world in which the resource is served and is that text. *)
Definition unterminated_world : World :=
  {| fetch := λ _, Normal {| ok := true; status := 200;
                             text := Normal unterminated_csv |};
     window_fs := None;
     Papa_parse := λ _, CallsComplete unterminated_results |}.

(** The parse of the two-row directory of the specification. *)
Definition two_rows : PapaParseResult :=
  {| data := [acme_row; other_row]; errors := [];
     meta := ["feed_title"; "feed_url"]%string |}.

(** A row with a URL and a website but no title, after one without URL. *)
Definition untitled_rows : PapaParseResult :=
  {| data := [ row_of [("feed_title", "No address")]%string;
               row_of [("feed_url", "http://c.org/feed");
                       ("website_url", "c.org")]%string ];
     errors := [];
     meta := ["feed_title"; "feed_url"; "website_url"]%string |}.

(** The entries the sample platform builds from the two rows. *)
Definition acme_entry : App.Feed :=
  {| App.id := lit "http://a.com/rss";
     App.feed_title := lit "ACME News";
     App.feed_url := lit "http://a.com/rss";
     App.website_url := [];
     App.favicon_url := Some (lit "/feeds/default-favicon.png") |}.

Definition other_entry : App.Feed :=
  {| App.id := lit "http://b.com/rss";
     App.feed_title := lit "Other";
     App.feed_url := lit "http://b.com/rss";
     App.website_url := [];
     App.favicon_url := Some (lit "/feeds/default-favicon.png") |}.

Definition acme_entry_000 : Part000.Feed :=
  {| Part000.id := lit "http://a.com/rss";
     Part000.feed_title := lit "ACME News";
     Part000.feed_url := lit "http://a.com/rss";
     Part000.website_url := [] |}.

(** An entry titled with the Russian word for news, capital letter
    first. *)
Definition novosti_entry : App.Feed :=
  {| App.id := lit "http://n.ru/rss";
     App.feed_title := [0x41D; 0x43E; 0x432; 0x43E; 0x441; 0x442; 0x438];
     App.feed_url := lit "http://n.ru/rss";
     App.website_url := [];
     App.favicon_url := Some (lit "/feeds/default-favicon.png") |}.

(** An entry of the component as the earlier revision holds it: without
    the favicon. *)
Definition forget_favicon (f : App.Feed) : Part000.Feed :=
  {| Part000.id := App.id f;
     Part000.feed_title := App.feed_title f;
     Part000.feed_url := App.feed_url f;
     Part000.website_url := App.website_url f |}.

(** How many times a trace parses and reads the file. *)
Definition is_parse (ev : Event) : bool :=
  match ev with
  | Parsed _ => true
  | Fetched _ | FileRead _ => false
  end.

Definition parses (τ : list Event) : nat :=
  length (filter (λ ev, is_parse ev) τ).

Definition is_file_read (ev : Event) : bool :=
  match ev with
  | FileRead _ => true
  | Fetched _ | Parsed _ => false
  end.

Definition file_reads (τ : list Event) : nat :=
  length (filter (λ ev, is_file_read ev) τ).

(** Every element is a 16-bit code unit. *)
Definition code_unit_string (s : jsstring) : Prop :=
  Forall (λ c, c < 0x10000) s.

(** The fixed part of a subscribe link. *)
Definition inoreader_template : jsstring :=
  lit "https://www.inoreader.com/search/feeds/".

(** The default favicon of a platform. *)
Definition default_favicon {platform : Platform} : jsstring :=
  BASE_URL ++ lit "default-favicon.png".

(** Reading a percent-encoding back.  [unescape] turns every [%XX] into
    the octet it writes and leaves other units alone; [utf8_code_points]
    reads UTF-8 octets as code points.  They are only used to show that
    [encodeURIComponent] loses nothing. *)
Definition unhex (c : N) : N := if c <? 65 then c - 48 else c - 55.

Fixpoint unescape (s : jsstring) : list N :=
  match s with
  | [] => []
  | c :: rest =>
      if c =? 37 then
        match rest with
        | h :: l :: rest' => (unhex h * 16 + unhex l) :: unescape rest'
        | _ => c :: unescape rest
        end
      else c :: unescape rest
  end.

Fixpoint utf8_code_points (octets : list N) : list N :=
  match octets with
  | [] => []
  | b :: rest =>
      if b <? 0x80 then b :: utf8_code_points rest
      else if b <? 0xE0 then
        match rest with
        | b2 :: rest' =>
            ((b - 0xC0) * 64 + (b2 - 0x80)) :: utf8_code_points rest'
        | _ => []
        end
      else if b <? 0xF0 then
        match rest with
        | b2 :: b3 :: rest' =>
            ((b - 0xE0) * 4096 + (b2 - 0x80) * 64 + (b3 - 0x80))
            :: utf8_code_points rest'
        | _ => []
        end
      else
        match rest with
        | b2 :: b3 :: b4 :: rest' =>
            ((b - 0xF0) * 262144 + (b2 - 0x80) * 4096 + (b3 - 0x80) * 64
             + (b4 - 0x80))
            :: utf8_code_points rest'
        | _ => []
        end
  end.

(** The row shown for a published feed: keyed by its URL, with the
    subscribe button on the percent-encoded URL and the visit button on the
    website URL when there is one. *)
Definition shown_row {platform : Platform} (f : App.Feed) : App.Row :=
  {| App.key := App.feed_url f;
     App.img_src := App.favicon_url f;
     App.img_fallback := default_favicon;
     App.heading := App.feed_title f;
     App.subscribe :=
       Some {| App.anchor_href :=
                 inoreader_template ++ percent_encoding (App.feed_url f);
               App.anchor_title := lit "Subscribe to " ++ App.feed_title f
                                   ++ lit " in Inoreader" |};
     App.visit :=
       match App.website_url f with
       | [] => None
       | c :: w =>
           Some {| App.anchor_href := c :: w;
                   App.anchor_title := lit "Visit website for "
                                       ++ App.feed_title f |}
       end |}.

(** The page shown for a view whose feeds were published by the handler:
    the counts, the search box, and the rows of the feeds that pass the
    filter or the empty-state message. *)
Definition shown_page {platform : Platform} {unicode : Unicode}
    (c : Component App.Feed) : App.Page :=
  let shown := App.filteredFeeds (feeds c) (searchTerm c) in
  {| App.subtitle_count := length (feeds c);
     App.search_value := searchTerm c;
     App.listing :=
       match shown with
       | [] => App.NoRows
                 (match searchTerm c with
                  | [] => lit "No feeds available."
                  | _ :: _ => lit "No feeds found matching your search."
                  end)
       | _ :: _ => App.Rows (shown_row <$> shown)
       end;
     App.showing := length shown;
     App.of_total := length (feeds c);
     App.filtered_note := truthy (searchTerm c) |}.

(** Worlds to run the load in: the resource is missing (status 404), the
    resource is the two-row directory, the parser calls its error callback,
    the fetch rejects with [undefined], and a page with [window.fs] that
    holds the two-row directory. *)
Definition two_rows_csv : jsstring :=
  lit "feed_title,feed_url" ++ [10]
  ++ lit "ACME News,http://a.com/rss" ++ [10]
  ++ lit "Other,http://b.com/rss" ++ [10].

Definition not_found_response : Response :=
  {| ok := false; status := 404; text := Normal [] |}.

Definition two_rows_response : Response :=
  {| ok := true; status := 200; text := Normal two_rows_csv |}.

Definition not_found_world : World :=
  {| fetch := λ _, Normal not_found_response;
     window_fs := None;
     Papa_parse := λ _, CallsComplete two_rows |}.

Definition two_rows_world : World :=
  {| fetch := λ _, Normal two_rows_response;
     window_fs := None;
     Papa_parse := λ _, CallsComplete two_rows |}.

Definition parser_error_world : World :=
  {| fetch := λ _, Normal two_rows_response;
     window_fs := None;
     Papa_parse := λ _, CallsError (lit "aborted") |}.

Definition undefined_rejection_world : World :=
  {| fetch := λ _, Throw Nullish;
     window_fs := None;
     Papa_parse := λ _, CallsComplete two_rows |}.

Definition window_fs_world : World :=
  {| fetch := λ _, Throw (ErrorObject (lit "TypeError") (lit "Failed to fetch"));
     window_fs := Some (λ _, Normal two_rows_csv);
     Papa_parse := λ _, CallsComplete two_rows |}.

(** A parse whose second row has a feed URL ending in an unpaired
    surrogate half, and a world that serves it. *)
Definition lone_surrogate_row : gmap string jsstring :=
  <["feed_url"%string := lit "http://s.org/" ++ [0xD800]]>
    (row_of [("feed_title", "Stray half")]%string).

Definition lone_surrogate_results : PapaParseResult :=
  {| data := [acme_row; lone_surrogate_row]; errors := [];
     meta := ["feed_title"; "feed_url"]%string |}.

Definition lone_surrogate_world : World :=
  {| fetch := λ _, Normal two_rows_response;
     window_fs := None;
     Papa_parse := λ _, CallsComplete lone_surrogate_results |}.

(** The directory after the two-row load, with [acme] typed in the search
    box. *)
Definition acme_search_view : Component App.Feed :=
  {| feeds := [acme_entry; other_entry]; loading := false; error := None;
     searchTerm := lit "acme" |}.

(** ** Properties of the built-ins *)

Section Strings.
Context {unicode : Unicode}.

Ltac div_lia := zify; Z.to_euclidean_division_equations; lia.

Lemma in_range_spec (lo hi c : N) : in_range lo hi c = true ↔ lo ≤ c ≤ hi.
Proof. unfold in_range. rewrite andb_true_iff, !N.leb_le. done. Qed.

Lemma startsWith_prefix (s search : jsstring) :
  startsWith s search = true ↔ search `prefix_of` s.
Proof.
  revert s. induction search as [|c search IH]; intros [|d s]; simpl.
  - split; [intros _; apply prefix_nil | done].
  - split; [intros _; apply prefix_nil | done].
  - split; [done | intros H; by apply prefix_nil_not in H].
  - rewrite andb_true_iff, N.eqb_eq, IH. split.
    + intros [-> H]. by apply prefix_cons.
    + intros H. split; [by eapply prefix_cons_inv_1 | by eapply prefix_cons_inv_2].
Qed.

Lemma includes_occurs (s search : jsstring) :
  includes s search = true ↔ occurs_in search s.
Proof.
  induction s as [|d s IH].
  - cbn [includes]. rewrite orb_false_r, startsWith_prefix. split.
    + intros [k ->]. by exists [], k.
    + intros (before & after & H). symmetry in H.
      apply app_eq_nil in H as [-> H]. apply app_eq_nil in H as [-> ->].
      apply prefix_nil.
  - cbn [includes]. rewrite orb_true_iff, startsWith_prefix, IH. split.
    + intros [[k ->] | (before & after & ->)].
      * by exists [], k.
      * by exists (d :: before), after.
    + intros ([|b before] & after & H); simpl in H.
      * left. by exists after.
      * right. injection H as -> ->. by exists before, after.
Qed.

Lemma includes_empty (s : jsstring) : includes s [] = true.
Proof. apply includes_occurs. by exists [], s. Qed.

Lemma truthy_nonempty (s : jsstring) : truthy s = true ↔ s ≠ [].
Proof. destruct s; simpl; split; congruence. Qed.

Lemma or_else_truthy (v : option jsstring) (d : jsstring) :
  truthy d = true → truthy (or_else v d) = true.
Proof. by destruct v as [[|c s]|]. Qed.

Lemma or_else_empty (v : option jsstring) : or_else v [] = default [] v.
Proof. by destruct v as [[|c s]|]. Qed.

Lemma map_from_normal {A B} (f : A → N → Completion B) (g : nat → A → B)
    (n : nat) (l : list A) :
  (∀ i x, f x (N.of_nat i) = Normal (g i x)) →
  map_from f (N.of_nat n) l = Normal (imap (λ i, g (n + i)%nat) l).
Proof.
  intros Hf. revert n. induction l as [|x l IH]; intros n; [done|].
  cbn [map_from]. rewrite Hf. rewrite <- Nnat.Nat2N.inj_succ, IH. simpl.
  rewrite Nat.add_0_r. do 2 f_equal. apply imap_ext. intros i y _. simpl.
  f_equal. lia.
Qed.

(** Induction on a string one unit or one surrogate pair at a time. *)
Lemma pairwise_ind (P : jsstring → Prop) :
  P [] →
  (∀ c rest, P rest → (∀ d rest', rest = d :: rest' → P rest') → P (c :: rest)) →
  ∀ s, P s.
Proof.
  intros Hnil Hcons s.
  assert (P s ∧ ∀ d rest', s = d :: rest' → P rest') as [H _]; [|done].
  induction s as [|c s [IH1 IH2]].
  - split; [done|]. intros; discriminate.
  - split; [by apply Hcons|]. by intros d rest' [= <- <-].
Qed.

Lemma occurs_in_trans (r t s : jsstring) :
  occurs_in r t → occurs_in t s → occurs_in r s.
Proof.
  intros (b1 & a1 & ->) (b2 & a2 & ->). exists (b2 ++ b1), (a1 ++ a2).
  by rewrite <- !app_assoc.
Qed.

Lemma well_formed_head (c : N) (s : jsstring) :
  well_formed (c :: s) = true → is_low_surrogate c = false.
Proof. cbn [well_formed]. by destruct (is_low_surrogate c). Qed.


Lemma code_points_app (a b : jsstring) :
  well_formed a = true →
  code_points (a ++ b) = code_points a ++ code_points b.
Proof.
  induction a as [|c rest IH1 IH2] using pairwise_ind; [done|].
  rewrite <- app_comm_cons. cbn [well_formed code_points].
  destruct (is_low_surrogate c); [done|].
  destruct (is_high_surrogate c).
  - destruct rest as [|d rest']; [done|].
    rewrite <- app_comm_cons. intros [Hd Hwf]%andb_true_iff. rewrite Hd.
    rewrite <- app_comm_cons. f_equal. by apply (IH2 d rest').
  - intros Hwf. rewrite <- app_comm_cons. f_equal. by apply IH1.
Qed.

Lemma code_points_elem (s : jsstring) (x : N) :
  x ∈ code_points s → x ∈ s ∨ 0x10000 ≤ x.
Proof.
  induction s as [|c rest IH1 IH2] using pairwise_ind; [by left|].
  cbn [code_points]. destruct (is_high_surrogate c).
  - destruct rest as [|d rest']; [by left|].
    destruct (is_low_surrogate d).
    + intros [->|Hx]%elem_of_cons.
      * right. unfold pair_code_point. lia.
      * destruct (IH2 d rest' eq_refl Hx) as [H|H]; [left|by right].
        by do 2 apply list_elem_of_further.
    + intros [->|Hx]%elem_of_cons; [left; by left|].
      destruct (IH1 Hx) as [H|H]; [left|by right].
      by apply list_elem_of_further.
  - intros [->|Hx]%elem_of_cons; [left; by left|].
    destruct (IH1 Hx) as [H|H]; [left|by right].
    by apply list_elem_of_further.
Qed.

Lemma code_points_sigma_free (s : jsstring) :
  SIGMA ∉ s → SIGMA ∉ code_points s.
Proof.
  intros Hs Hin. apply code_points_elem in Hin as [Hin|Hin]; [done|].
  unfold SIGMA in Hin. lia.
Qed.


(** Where one string ends and the next does not begin with a low
    surrogate, no pair is read across the joint. *)
Lemma code_points_app_boundary (a b : jsstring) :
  (∀ d b', b = d :: b' → is_low_surrogate d = false) →
  code_points (a ++ b) = code_points a ++ code_points b.
Proof.
  intros Hb. induction a as [|c rest IH1 IH2] using pairwise_ind; [done|].
  rewrite <- app_comm_cons. cbn [code_points].
  destruct (is_high_surrogate c); [|by rewrite IH1].
  destruct rest as [|d rest'].
  - cbn [app]. destruct b as [|d b']; [done|]. by rewrite (Hb d b' eq_refl).
  - cbn [app]. destruct (is_low_surrogate d).
    + by rewrite (IH2 d rest' eq_refl).
    + by rewrite (app_comm_cons rest' b d), IH1.
Qed.

Lemma lower_from_sigma_free (before s : list N) :
  SIGMA ∉ s → lower_from before s = s ≫= Lowercase_Mapping.
Proof.
  revert before. induction s as [|c s IH]; intros before Hs; [done|].
  apply not_elem_of_cons in Hs as [Hc Hs]. cbn [lower_from].
  rewrite IH by done. by destruct (N.eqb_spec c SIGMA).
Qed.

Lemma toLowerCase_sigma_free (s : jsstring) :
  SIGMA ∉ code_points s →
  toLowerCase s = from_code_points (code_points s ≫= Lowercase_Mapping).
Proof. intros Hs. unfold toLowerCase. by rewrite lower_from_sigma_free. Qed.

(** A run without capital sigma is converted by itself wherever it
    stands. *)
Lemma lower_from_run (before l1 run l2 : list N) :
  SIGMA ∉ run →
  ∃ head tail,
    lower_from before (l1 ++ run ++ l2)
    = head ++ (run ≫= Lowercase_Mapping) ++ tail.
Proof.
  intros Hrun. revert before. induction l1 as [|c l1 IH]; intros before.
  - exists []. cbn [app]. revert before.
    induction run as [|c run IH]; intros before.
    + by exists (lower_from before l2).
    + apply not_elem_of_cons in Hrun as [Hc Hrun].
      destruct (IH Hrun (c :: before)) as (tail & Htail). exists tail.
      rewrite <- app_comm_cons. cbn [lower_from]. rewrite Htail.
      destruct (N.eqb_spec c SIGMA); [done|].
      cbn [andb mbind list_bind]. by rewrite <- app_assoc.
  - destruct (IH (c :: before)) as (head & tail & Heq).
    eexists (_ ++ head), tail. rewrite <- app_comm_cons. cbn [lower_from].
    by rewrite Heq, <- app_assoc.
Qed.

(** Lower-casing keeps the occurrences of a well-formed string without a
    capital sigma, whatever it occurs in. *)
Lemma toLowerCase_occurs (s s' : jsstring) :
  well_formed s = true → SIGMA ∉ s →
  occurs_in s s' → occurs_in (toLowerCase s) (toLowerCase s').
Proof.
  intros Hs Hsigma (before & after & ->).
  destruct s as [|c s]; [by exists [], (toLowerCase (before ++ after))|].
  rewrite (toLowerCase_sigma_free (c :: s))
    by by apply code_points_sigma_free.
  unfold toLowerCase at 1.
  rewrite code_points_app_boundary
    by (intros d b' [= <- _]; by eapply well_formed_head).
  rewrite (code_points_app (c :: s)) by done.
  destruct (lower_from_run [] (code_points before) (code_points (c :: s))
              (code_points after)) as (head & tail & ->);
    [by apply code_points_sigma_free|].
  exists (from_code_points head), (from_code_points tail).
  unfold from_code_points. by rewrite !bind_app.
Qed.

(** Scalar values are written and read back as they are, and what is
    written is well-formed. *)
Lemma scalar_value_spec (c : N) :
  scalar_value c = true ↔
  c < 0x110000 ∧ is_high_surrogate c = false ∧ is_low_surrogate c = false.
Proof.
  unfold scalar_value.
  rewrite !andb_true_iff, !negb_true_iff, N.ltb_lt. tauto.
Qed.

Lemma code_points_lone (c : N) (t : jsstring) :
  (is_high_surrogate c = true →
   ∀ d t', t = d :: t' → is_low_surrogate d = false) →
  code_points (c :: t) = c :: code_points t.
Proof.
  intros H. cbn [code_points]. destruct (is_high_surrogate c); [|done].
  destruct t as [|d t']; [done|]. by rewrite (H eq_refl d t' eq_refl).
Qed.

Lemma code_points_scalars (l : list N) :
  forallb scalar_value l = true → code_points (from_code_points l) = l.
Proof.
  unfold from_code_points. induction l as [|c l IH]; [done|].
  cbn [forallb mbind list_bind]. intros [Hc Hl]%andb_true_iff.
  apply scalar_value_spec in Hc as (Hc & Hh & Hlow).
  specialize (IH Hl). unfold code_units at 1.
  destruct (N.ltb_spec c 0x10000) as [Hbmp|Hastral].
  - cbn [app]. rewrite code_points_lone; [by rewrite IH|]. by rewrite Hh.
  - cbn [app code_points].
    replace (is_high_surrogate (0xD800 + (c - 0x10000) / 0x400)) with true.
    2: { symmetry. apply in_range_spec. div_lia. }
    replace (is_low_surrogate (0xDC00 + (c - 0x10000) mod 0x400)) with true.
    2: { symmetry. apply in_range_spec. div_lia. }
    rewrite IH. f_equal. unfold pair_code_point. div_lia.
Qed.



(** *** Strings that lower-case letter by letter *)



Lemma same_letter_lower (l l' : list N) :
  Forall2 same_letter l l' →
  l ≫= Lowercase_Mapping = l' ≫= Lowercase_Mapping.
Proof.
  induction 1 as [|c c' l l' Hc _ IH]; [done|].
  cbn [mbind list_bind] in *. unfold same_letter in Hc. by rewrite Hc, IH.
Qed.




End Strings.

(** ** The sanitisation run by the parse-complete handler *)

Section Sanitisation.
Context {platform : Platform}.

Lemma getFaviconUrl_returns (websiteUrl : jsstring) :
  App.getFaviconUrl websiteUrl = Normal (favicon_for websiteUrl).
Proof.
  unfold favicon_for, App.getFaviconUrl.
  destruct (truthy websiteUrl); [|done].
  by destruct (new_URL _).
Qed.

Lemma sanitizedFeeds_normal (rows : list (gmap string jsstring)) :
  App.sanitizedFeeds rows =
  Normal (filter (λ feed, truthy (App.feed_url feed)) (imap built_entry rows)).
Proof.
  unfold App.sanitizedFeeds, Array_map.
  rewrite (map_from_normal _ built_entry 0%nat); [done|].
  intros i row. by rewrite getFaviconUrl_returns.
Qed.

Lemma complete_runs (results : PapaParseResult) (σ : Store App.Feed) :
  App.complete results σ =
  (Normal (),
   {| view := {| feeds := filter (λ feed, truthy (App.feed_url feed))
                            (imap built_entry (data results));
                 loading := false;
                 error := error (view σ);
                 searchTerm := searchTerm (view σ) |};
      trace := trace σ |}).
Proof. unfold App.complete. by rewrite sanitizedFeeds_normal. Qed.

Lemma complete_ignores_reported_errors (results : PapaParseResult)
    (reported : list ParseError) (σ : Store App.Feed) :
  App.complete {| data := data results; errors := reported;
                  meta := meta results |} σ
  = App.complete results σ.
Proof. done. Qed.

Lemma published_complete (results : PapaParseResult) (σ : Store App.Feed) :
  published (App.complete results) σ =
  filter (λ feed, truthy (App.feed_url feed)) (imap built_entry (data results)).
Proof. unfold published. by rewrite complete_runs. Qed.

Lemma published_complete_part000 (results : PapaParseResult)
    (σ : Store Part000.Feed) :
  published (Part000.complete results) σ =
  Part000.sanitizedFeeds (data results).
Proof. done. Qed.

Lemma kept_urls {F} (url : F → jsstring)
    (e : nat → gmap string jsstring → F) (rows : list (gmap string jsstring)) :
  (∀ i row, url (e i row) = url_column row) →
  url <$> filter (λ f, truthy (url f)) (imap e rows) =
  filter (λ u, u ≠ []) (url_column <$> rows).
Proof.
  revert e. induction rows as [|row rows IH]; intros e He; [done|].
  rewrite imap_cons, fmap_cons, !filter_cons, He.
  assert (url <$> filter (λ f, truthy (url f)) (imap (e ∘ S) rows) =
          filter (λ u, u ≠ []) (url_column <$> rows)) as IH'.
  { apply IH. intros i r. apply He. }
  destruct (url_column row) as [|c u] eqn:Hu; repeat case_decide; try done.
  by rewrite fmap_cons, He, Hu, IH'.
Qed.

Lemma built_entry_url (i : nat) (row : gmap string jsstring) :
  App.feed_url (built_entry i row) = url_column row.
Proof. apply or_else_empty. Qed.

Lemma built_entry_000_url (i : nat) (row : gmap string jsstring) :
  Part000.feed_url (built_entry_000 i row) = url_column row.
Proof. apply or_else_empty. Qed.

Lemma blank_url_column (row : gmap string jsstring) :
  blank row "feed_url" ↔ url_column row = [].
Proof.
  unfold blank, url_column. destruct (row !! _) as [[|c u]|]; simpl; intuition congruence.
Qed.

Lemma kept_entry (i : nat) (row : gmap string jsstring)
    (rows : list (gmap string jsstring)) :
  rows !! i = Some row → ¬ blank row "feed_url" →
  built_entry i row ∈
    filter (λ feed, truthy (App.feed_url feed)) (imap built_entry rows).
Proof.
  intros Hrow Hurl. apply list_elem_of_filter. split.
  - rewrite built_entry_url. apply Is_true_true, truthy_nonempty.
    by rewrite <- blank_url_column.
  - apply list_elem_of_lookup. exists i. by rewrite list_lookup_imap, Hrow.
Qed.

Lemma published_origin (f : App.Feed) (rows : list (gmap string jsstring)) :
  f ∈ filter (λ feed, truthy (App.feed_url feed)) (imap built_entry rows) →
  ∃ i row, rows !! i = Some row ∧ ¬ blank row "feed_url" ∧ f = built_entry i row.
Proof.
  rewrite list_elem_of_filter. intros [Hurl Hin].
  apply list_elem_of_lookup in Hin as [i Hi].
  rewrite list_lookup_imap in Hi.
  destruct (rows !! i) as [row|] eqn:Hrow; [|done].
  injection Hi as <-. exists i, row. split; [done|]. split; [|done].
  rewrite blank_url_column, <- (built_entry_url i).
  by apply truthy_nonempty, Is_true_true.
Qed.

Lemma published_origin_000 (f : Part000.Feed)
    (rows : list (gmap string jsstring)) :
  f ∈ Part000.sanitizedFeeds rows →
  ∃ i row, rows !! i = Some row ∧ ¬ blank row "feed_url"
           ∧ f = built_entry_000 i row.
Proof.
  unfold Part000.sanitizedFeeds. rewrite list_elem_of_filter. intros [Hurl Hin].
  apply list_elem_of_lookup in Hin as [i Hi].
  rewrite list_lookup_imap in Hi.
  destruct (rows !! i) as [row|] eqn:Hrow; [|done].
  injection Hi as <-. exists i, row. split; [done|]. split; [|done].
  rewrite blank_url_column, <- (built_entry_000_url i).
  by apply truthy_nonempty, Is_true_true.
Qed.

Lemma complete_urls (results : PapaParseResult) (σ : Store App.Feed) :
  Forall (λ f, App.feed_url f ≠ []) (published (App.complete results) σ).
Proof.
  rewrite published_complete. apply list.Forall_forall. intros f Hf.
  apply list_elem_of_filter in Hf as [Hf _].
  by apply truthy_nonempty, Is_true_true.
Qed.

Lemma complete_urls_000 (results : PapaParseResult) (σ : Store Part000.Feed) :
  Forall (λ f, Part000.feed_url f ≠ [])
         (published (Part000.complete results) σ).
Proof.
  rewrite published_complete_part000. apply list.Forall_forall. intros f Hf.
  apply list_elem_of_filter in Hf as [Hf _].
  by apply truthy_nonempty, Is_true_true.
Qed.

End Sanitisation.

(** ** The favicon helper *)

Section Favicon.
Context {platform : Platform}.

Lemma startsWith_http (websiteUrl : jsstring) :
  (if startsWith websiteUrl (lit "http") then websiteUrl
   else lit "https://" ++ websiteUrl) = with_scheme websiteUrl.
Proof.
  unfold with_scheme.
  destruct (startsWith websiteUrl (lit "http")) eqn:H; case_decide; try done.
  - exfalso. by apply startsWith_prefix in H.
  - apply startsWith_prefix in H0. congruence.
Qed.

(** C8. The favicon helper always returns and never throws.  For the empty
    string, and whenever the URL constructor rejects the website URL (taken
    as is when it begins with [http], prefixed with [https://] otherwise),
    it returns the default-favicon path under the base path; whenever the
    constructor accepts, it returns the favicon service's URL for the parsed
    hostname. *)
Theorem C8_getFaviconUrl_total (websiteUrl : jsstring) :
  (∃ favicon, App.getFaviconUrl websiteUrl = Normal favicon)
  ∧ (websiteUrl = [] →
     App.getFaviconUrl websiteUrl
       = Normal (BASE_URL ++ lit "default-favicon.png"))
  ∧ (∀ e, websiteUrl ≠ [] →
       new_URL (with_scheme websiteUrl) = Throw e →
       App.getFaviconUrl websiteUrl
         = Normal (BASE_URL ++ lit "default-favicon.png"))
  ∧ (∀ url, websiteUrl ≠ [] →
       new_URL (with_scheme websiteUrl) = Normal url →
       App.getFaviconUrl websiteUrl
         = Normal (lit "https://www.google.com/s2/favicons?domain="
                   ++ hostname url)).
Proof.
  split_and!.
  - eexists. apply getFaviconUrl_returns.
  - by intros ->.
  - intros e Hne Hurl. unfold App.getFaviconUrl.
    destruct websiteUrl as [|c w]; [done|]. cbn [truthy].
    by rewrite startsWith_http, Hurl.
  - intros url Hne Hurl. unfold App.getFaviconUrl.
    destruct websiteUrl as [|c w]; [done|]. cbn [truthy].
    by rewrite startsWith_http, Hurl.
Qed.

End Favicon.

(** ** The live filter *)

Section Filter.
Context {platform : Platform} {unicode : Unicode}.

Lemma filter_all {A} (P : A → Prop) `{∀ x, Decision (P x)} (l : list A) :
  Forall P l → filter P l = l.
Proof.
  induction 1 as [|x l Hx _ IH]; [done|].
  by rewrite filter_cons, decide_True, IH.
Qed.

Lemma published_titled (results : PapaParseResult) (σ : Store App.Feed) :
  Forall (λ f, truthy (App.feed_title f) = true)
         (published (App.complete results) σ).
Proof.
  rewrite published_complete. apply list.Forall_forall. intros f Hf.
  apply published_origin in Hf as (i & row & _ & _ & ->).
  by apply or_else_truthy.
Qed.

(** C4. With the empty search string the filter returns the whole loaded
    list, in its order: no published entry has an empty title, and the
    empty string occurs in every title. *)
Theorem C4_empty_search_returns_loaded_list
    (results : PapaParseResult) (σ : Store App.Feed) :
  Forall (λ f, App.feed_title f ≠ []) (published (App.complete results) σ)
  ∧ App.filteredFeeds (published (App.complete results) σ) []
    = published (App.complete results) σ.
Proof.
  split.
  - eapply list.Forall_impl; [apply published_titled|].
    intros f Hf. by apply truthy_nonempty.
  - apply filter_all.
    eapply list.Forall_impl; [apply published_titled|].
    intros f Hf. simpl in Hf. rewrite Hf. simpl.
    change (toLowerCase []) with (@nil N). by rewrite includes_empty.
Qed.



Lemma selection_functional {A} (P : A → Prop) (l k1 k2 : list A) :
  selection P l k1 → selection P l k2 → k1 = k2.
Proof.
  intros H1. revert k2.
  induction H1 as [|x l k1 Hx _ IH|x l k1 Hx _ IH]; intros k2 H2;
    inversion H2; subst; try done.
  - f_equal. by apply IH.
  - by apply IH.
Qed.




Lemma sublist_keeps_order {A} (l1 l2 : list A) (i j : nat) (a b : A) :
  l1 `sublist_of` l2 → (i < j)%nat →
  l1 !! i = Some a → l1 !! j = Some b →
  ∃ i' j', (i' < j')%nat ∧ l2 !! i' = Some a ∧ l2 !! j' = Some b.
Proof.
  intros Hsub. revert i j.
  induction Hsub as [|x l1 l2 Hsub IH|x l1 l2 Hsub IH]; intros i j Hij Ha Hb.
  - done.
  - destruct j as [|j]; [lia|]. destruct i as [|i]; simpl in *.
    + injection Ha as ->.
      assert (b ∈ l2) as Hin.
      { eapply elem_of_sublist; [|done]. by eapply list_elem_of_lookup_2. }
      apply list_elem_of_lookup in Hin as [k Hk].
      exists 0%nat, (S k). split_and!; [lia|done|done].
    + destruct (IH i j) as (i' & j' & ? & ? & ?); [lia|done|done|].
      exists (S i'), (S j'). split_and!; [lia|done|done].
  - destruct (IH i j) as (i' & j' & ? & ? & ?); [done..|].
    exists (S i'), (S j'). split_and!; [lia|done|done].
Qed.

(** C10. For any list of feeds and any search string the filtered result is
    a subsequence of the list: it arises by deleting entries, so no entry
    occurs in it more often than in the list (in particular it repeats
    nothing when the list does not), and two entries that both survive
    stand in the order they had in the list. *)
Theorem C10_filtered_is_ordered_subsequence
    (feeds : list App.Feed) (search : jsstring) :
  App.filteredFeeds feeds search `sublist_of` feeds
  ∧ App.filteredFeeds feeds search ⊆+ feeds
  ∧ (NoDup feeds → NoDup (App.filteredFeeds feeds search))
  ∧ (∀ i j a b, (i < j)%nat →
       App.filteredFeeds feeds search !! i = Some a →
       App.filteredFeeds feeds search !! j = Some b →
       ∃ i' j', (i' < j')%nat ∧ feeds !! i' = Some a ∧ feeds !! j' = Some b).
Proof.
  assert (App.filteredFeeds feeds search `sublist_of` feeds) as Hsub
    by apply sublist_filter.
  split_and!; [done|by apply sublist_submseteq| |].
  - intros Hnd. by eapply sublist_NoDup.
  - intros i j a b. by apply sublist_keeps_order.
Qed.

(** C3, as amended. For a well-formed search string without the Greek
    capital sigma (the one letter whose lower case depends on its
    neighbours), enlarging it never adds an entry: if [search] occurs in
    [search'], whatever else [search'] holds, every entry returned for
    [search'] is returned for [search]. *)
Theorem C3_filter_monotonic_without_capital_sigma
    (feeds : list App.Feed) (search search' : jsstring) :
  well_formed search = true →
  SIGMA ∉ search →
  occurs_in search search' →
  App.filteredFeeds feeds search' ⊆ App.filteredFeeds feeds search.
Proof.
  intros Hwf Hsigma Hocc f. unfold App.filteredFeeds.
  rewrite !list_elem_of_filter. intros [Hf Hin]. split; [|done].
  apply andb_True in Hf as [Hguard Hinc]. apply andb_True. split; [done|].
  apply Is_true_true, includes_occurs. apply Is_true_true, includes_occurs in Hinc.
  eapply occurs_in_trans; [|done]. by apply toLowerCase_occurs.
Qed.

End Filter.


(** C3 as stated fails.  For the loaded row titled with the capitals
    alpha-sigma-alpha, the search string alpha-sigma returns nothing, because
    its sigma ends the word and lower-cases to the final form, while the
    longer search string alpha-sigma-alpha returns the entry.  And for the
    row titled with a capital letter of the supplementary planes, the low
    half of its surrogate pair returns nothing while the whole pair returns
    the entry. *)
Lemma C3_final_sigma_breaks_monotonicity :
  let load rows :=
    published (App.complete (platform := sample_platform)
                 {| data := rows; errors := []; meta := [] |}) mounted in
  let filtered := App.filteredFeeds (unicode := sample_unicode) in
  (occurs_in [0x391; 0x3A3] [0x391; 0x3A3; 0x391]
   ∧ length (load [greek_row]) = 1%nat
   ∧ filtered (load [greek_row]) [0x391; 0x3A3; 0x391] = load [greek_row]
   ∧ filtered (load [greek_row]) [0x391; 0x3A3] = []
   ∧ ¬ (filtered (load [greek_row]) [0x391; 0x3A3; 0x391]
        ⊆ filtered (load [greek_row]) [0x391; 0x3A3]))
  ∧ (occurs_in [0xDC00] [0xD801; 0xDC00]
     ∧ length (load [deseret_row]) = 1%nat
     ∧ filtered (load [deseret_row]) [0xD801; 0xDC00] = load [deseret_row]
     ∧ filtered (load [deseret_row]) [0xDC00] = []
     ∧ ¬ (filtered (load [deseret_row]) [0xD801; 0xDC00]
          ⊆ filtered (load [deseret_row]) [0xDC00])).
Proof.
  intros load filtered.
  assert (∀ rows long short,
            length (load rows) = 1%nat →
            filtered (load rows) long = load rows →
            filtered (load rows) short = [] →
            ¬ (filtered (load rows) long ⊆ filtered (load rows) short))
    as Hbreak.
  { intros rows long short Hlen -> -> Hsub.
    destruct (load rows) as [|f fs]; [done|].
    specialize (Hsub f (list_elem_of_here f fs)). by apply elem_of_nil in Hsub. }
  split.
  - assert (length (load [greek_row]) = 1%nat) as Hlen by by vm_compute.
    assert (filtered (load [greek_row]) [0x391; 0x3A3; 0x391]
            = load [greek_row]) as Hlong by by vm_compute.
    assert (filtered (load [greek_row]) [0x391; 0x3A3] = [])
      as Hshort by by vm_compute.
    split_and!; [by exists [], [0x391] | done | done | done |].
    by apply Hbreak.
  - assert (length (load [deseret_row]) = 1%nat) as Hlen by by vm_compute.
    assert (filtered (load [deseret_row]) [0xD801; 0xDC00]
            = load [deseret_row]) as Hlong by by vm_compute.
    assert (filtered (load [deseret_row]) [0xDC00] = [])
      as Hshort by by vm_compute.
    split_and!; [by exists [0xD801], [] | done | done | done |].
    by apply Hbreak.
Qed.

(** Why titles must lower-case letter by letter for the filter to keep
    matches only: LATIN CAPITAL LETTER I WITH DOT ABOVE has a lower case of
    two characters, the first of which is the letter i, so the title made of
    it and "stanbul" is found for the search string "i" although none of its
    letters is an i up to case. *)
Lemma longer_lower_case_is_found :
  letterwise (unicode := sample_unicode) (0x130 :: lit "stanbul") = false
  ∧ includes (toLowerCase (unicode := sample_unicode) (0x130 :: lit "stanbul"))
             (toLowerCase (unicode := sample_unicode) (lit "i")) = true
  ∧ ¬ contains_ignoring_case (unicode := sample_unicode)
        (0x130 :: lit "stanbul") (lit "i").
Proof.
  split_and!; [by vm_compute..|].
  intros (before & run & after & Htitle & Hrun).
  change (code_points (lit "i")) with [0x69] in Hrun.
  apply Forall2_cons_inv_r in Hrun as (x & rest & Hx & Hrest & ->).
  apply Forall2_nil_inv_r in Hrest as ->.
  assert (x ∈ code_points (0x130 :: lit "stanbul")) as Hin.
  { rewrite Htitle. apply elem_of_app. right. by left. }
  vm_compute in Hin.
  repeat (apply elem_of_cons in Hin as [->|Hin]; [by vm_compute in Hx|]).
  by apply elem_of_nil in Hin.
Qed.

(** ** The subscribe link *)

Section Subscribe.

Lemma unescaped_ascii (c : N) : uri_unescaped c = true → c < 0x80.
Proof.
  unfold uri_unescaped, in_range.
  rewrite !orb_true_iff, !andb_true_iff, !N.leb_le, !N.eqb_eq. lia.
Qed.

Lemma ascii_bit7 (c : N) : c < 0x80 → N.testbit c 7 = false.
Proof.
  intros Hc. rewrite <- (N.mod_small c (2 ^ 7)) by exact Hc.
  apply N.mod_pow2_bits_high. lia.
Qed.

Lemma lead_byte_escaped (k x : N) :
  N.testbit k 7 = true → uri_unescaped (N.lor k x) = false.
Proof.
  intros Hk. destruct (uri_unescaped (N.lor k x)) eqn:H; [|done].
  apply unescaped_ascii, ascii_bit7 in H.
  rewrite N.lor_spec, Hk in H. done.
Qed.

Lemma percent_encode_escaped (cp : N) :
  uri_unescaped cp = false →
  percent_encode (utf8_octets cp) = utf8_octets cp ≫= escape_octet.
Proof.
  intros Hcp. unfold percent_encode, utf8_octets.
  repeat case_match; cbn [mbind list_bind];
    rewrite ?Hcp, ?lead_byte_escaped by done; done.
Qed.

Lemma percent_encode_app (l1 l2 : list N) :
  percent_encode (l1 ++ l2) = percent_encode l1 ++ percent_encode l2.
Proof. apply bind_app. Qed.

Lemma surrogate_escaped (c : N) :
  is_low_surrogate c || is_high_surrogate c = true → uri_unescaped c = false.
Proof.
  intros H. destruct (uri_unescaped c) eqn:Hc; [|done].
  apply unescaped_ascii in Hc. revert H.
  unfold is_low_surrogate, is_high_surrogate, in_range.
  rewrite !orb_true_iff, !andb_true_iff, !N.leb_le. lia.
Qed.

Lemma pair_escaped (hi lo : N) : uri_unescaped (pair_code_point hi lo) = false.
Proof.
  destruct (uri_unescaped _) eqn:H; [|done].
  apply unescaped_ascii in H. unfold pair_code_point in H. lia.
Qed.

Lemma encodeURIComponent_well_formed (s : jsstring) :
  well_formed s = true → encodeURIComponent s = Normal (percent_encoding s).
Proof.
  remember (length s) as n eqn:Hn. revert s Hn.
  induction n as [n IH] using lt_wf_ind. intros [|c rest] Hn Hwf; [done|].
  cbn [encodeURIComponent well_formed code_points] in *.
  unfold percent_encoding in *. cbn [code_points].
  destruct (uri_unescaped c) eqn:Hc.
  - assert (is_low_surrogate c = false ∧ is_high_surrogate c = false) as [Hl Hh].
    { split; apply not_true_is_false; intros H;
        pose proof (surrogate_escaped c) as Hs; rewrite H in Hs;
        rewrite ?orb_true_r in Hs; specialize (Hs eq_refl); congruence. }
    rewrite Hl, Hh in *. rewrite (IH (length rest)); [|simpl in Hn; lia|done|done].
    cbn [mbind Completion_bind list_bind]. rewrite percent_encode_app.
    f_equal. unfold utf8_octets. apply unescaped_ascii in Hc as Hlt.
    apply N.ltb_lt in Hlt as ->. unfold percent_encode.
    cbn [mbind list_bind]. by rewrite Hc.
  - destruct (is_low_surrogate c) eqn:Hl; [done|].
    destruct (is_high_surrogate c) eqn:Hh.
    + destruct rest as [|d rest']; [done|].
      apply andb_true_iff in Hwf as [Hd Hwf]. rewrite Hd.
      rewrite (IH (length rest')); [|simpl in Hn; lia|done|done].
      cbn [mbind Completion_bind list_bind]. rewrite percent_encode_app.
      by rewrite percent_encode_escaped by apply pair_escaped.
    + rewrite (IH (length rest)); [|simpl in Hn; lia|done|done].
      cbn [mbind Completion_bind list_bind]. rewrite percent_encode_app.
      by rewrite percent_encode_escaped.
Qed.

(** C6, as amended. For every feed URL without an unpaired surrogate half
    (every string decoded from the CSV text is such), the subscribe link is
    the fixed address of the reader's feed search followed by the
    percent-encoding of the URL's UTF-8 form, and nothing else. *)
Theorem C6_subscribe_link_of_well_formed_url (feedUrl : jsstring) :
  well_formed feedUrl = true →
  App.getInoreaderUrl feedUrl
  = Normal (lit "https://www.inoreader.com/search/feeds/"
            ++ percent_encoding feedUrl).
Proof.
  intros Hwf. unfold App.getInoreaderUrl, String_.
  by rewrite encodeURIComponent_well_formed.
Qed.

End Subscribe.

(** C6 as stated fails on a string that is not well-formed UTF-16: for the
    lone surrogate half U+D800 the encoder raises URIError and the helper
    returns nothing. *)
Lemma C6_lone_surrogate_raises_URIError :
  App.getInoreaderUrl [0xD800] = Throw URIError
  ∧ ¬ ∃ link, App.getInoreaderUrl [0xD800] = Normal link.
Proof. split; [done|]. by intros [link H]. Qed.

(** ** The load *)

Section Load.
Context {platform : Platform}.

Ltac run_M :=
  unfold try_catch_M, await_fetch, Papa_parse_with, mbind, M_bind, emit, lift,
    throw, setError, setLoading, setFeeds, update;
  cbn [view trace negb].

Lemma fetch_rejected (w : World) (σ : Store App.Feed) (e : Thrown) :
  fetch w (BASE_URL ++ lit "feeds_deduped.csv") = Throw e →
  App.loadFeeds w σ =
  (Normal (),
   {| view := failed (view σ) (load_error_message e);
      trace := trace σ ++ [Fetched (BASE_URL ++ lit "feeds_deduped.csv")] |}).
Proof.
  intros H. unfold App.loadFeeds. run_M. rewrite H. by destruct e.
Qed.

Lemma http_status_not_ok (w : World) (σ : Store App.Feed) (r : Response) :
  fetch w (BASE_URL ++ lit "feeds_deduped.csv") = Normal r →
  ok r = false →
  App.loadFeeds w σ =
  (Normal (),
   {| view := failed (view σ)
                (load_error_message
                   (ErrorObject (lit "Error")
                      (lit "HTTP error! status: " ++ number_to_string (status r))));
      trace := trace σ ++ [Fetched (BASE_URL ++ lit "feeds_deduped.csv")] |}).
Proof.
  intros H Hok. unfold App.loadFeeds. run_M. by rewrite H, Hok.
Qed.

Lemma body_rejected (w : World) (σ : Store App.Feed) (r : Response)
    (e : Thrown) :
  fetch w (BASE_URL ++ lit "feeds_deduped.csv") = Normal r →
  ok r = true →
  text r = Throw e →
  App.loadFeeds w σ =
  (Normal (),
   {| view := failed (view σ) (load_error_message e);
      trace := trace σ ++ [Fetched (BASE_URL ++ lit "feeds_deduped.csv")] |}).
Proof.
  intros H Hok Htext. unfold App.loadFeeds. run_M.
  rewrite H, Hok. cbn [negb]. rewrite Htext. by destruct e.
Qed.

Lemma parser_throws (w : World) (σ : Store App.Feed) (r : Response)
    (input : jsstring) (e : Thrown) :
  fetch w (BASE_URL ++ lit "feeds_deduped.csv") = Normal r →
  ok r = true →
  text r = Normal input →
  Papa_parse w input = ParseThrows e →
  App.loadFeeds w σ =
  (Normal (),
   {| view := failed (view σ) (load_error_message e);
      trace := (trace σ ++ [Fetched (BASE_URL ++ lit "feeds_deduped.csv")])
               ++ [Parsed input] |}).
Proof.
  intros H Hok Htext Hparse. unfold App.loadFeeds. run_M.
  rewrite H, Hok. cbn [negb]. rewrite Htext, Hparse. by destruct e.
Qed.

Lemma parser_calls_error (w : World) (σ : Store App.Feed) (r : Response)
    (input error_message : jsstring) :
  fetch w (BASE_URL ++ lit "feeds_deduped.csv") = Normal r →
  ok r = true →
  text r = Normal input →
  Papa_parse w input = CallsError error_message →
  App.loadFeeds w σ =
  (Normal (),
   {| view := failed (view σ) (lit "Error parsing CSV: " ++ error_message);
      trace := (trace σ ++ [Fetched (BASE_URL ++ lit "feeds_deduped.csv")])
               ++ [Parsed input] |}).
Proof.
  intros H Hok Htext Hparse. unfold App.loadFeeds. run_M.
  rewrite H, Hok. cbn [negb]. by rewrite Htext, Hparse.
Qed.

Lemma parser_calls_complete (w : World) (σ : Store App.Feed) (r : Response)
    (input : jsstring) (results : PapaParseResult) :
  fetch w (BASE_URL ++ lit "feeds_deduped.csv") = Normal r →
  ok r = true →
  text r = Normal input →
  Papa_parse w input = CallsComplete results →
  App.loadFeeds w σ =
  (Normal (),
   {| view := {| feeds := published (App.complete results) σ;
                 loading := false;
                 error := error (view σ);
                 searchTerm := searchTerm (view σ) |};
      trace := (trace σ ++ [Fetched (BASE_URL ++ lit "feeds_deduped.csv")])
               ++ [Parsed input] |}).
Proof.
  intros H Hok Htext Hparse. rewrite published_complete.
  unfold App.loadFeeds. run_M.
  rewrite H, Hok. cbn [negb]. rewrite Htext, Hparse. by rewrite complete_runs.
Qed.

(** A load from mount settles: it ends with the loading flag down, either
    with a message and no feeds or with the feeds of a parse and no
    message, after exactly one fetch. *)
Lemma loadFeeds_settles (w : World) :
  (App.loadFeeds w mounted).1 = Normal ()
  ∧ ((∃ msg, view (App.loadFeeds w mounted).2 = failed (view mounted) msg)
     ∨ (∃ results,
          view (App.loadFeeds w mounted).2
          = {| feeds := published (App.complete results) mounted;
               loading := false; error := None; searchTerm := [] |}))
  ∧ fetches (trace (App.loadFeeds w mounted).2) = 1%nat.
Proof.
  destruct (fetch w (BASE_URL ++ lit "feeds_deduped.csv")) as [r|e] eqn:Hf.
  2: { rewrite (fetch_rejected w mounted e) by done. split_and!; eauto. }
  destruct (ok r) eqn:Hok.
  2: { rewrite (http_status_not_ok w mounted r) by done. split_and!; eauto. }
  destruct (text r) as [input|e] eqn:Ht.
  2: { rewrite (body_rejected w mounted r e) by done. split_and!; eauto. }
  destruct (Papa_parse w input) as [results|msg|e] eqn:Hp.
  - rewrite (parser_calls_complete w mounted r input results) by done.
    split_and!; eauto.
  - rewrite (parser_calls_error w mounted r input msg) by done.
    split_and!; eauto.
  - rewrite (parser_throws w mounted r input e) by done. split_and!; eauto.
Qed.

(** In the error state the list is empty. *)
Lemma error_state_has_no_feeds (w : World) :
  error (view (App.loadFeeds w mounted).2) ≠ None →
  feeds (view (App.loadFeeds w mounted).2) = [].
Proof.
  destruct (loadFeeds_settles w) as (_ & [[msg ->] | [results ->]] & _);
    by cbn.
Qed.

Lemma loadFeeds_published (w : World) (σ : Store App.Feed) :
  published (App.loadFeeds w) σ = feeds (view σ)
  ∨ ∃ results,
      published (App.loadFeeds w) σ = published (App.complete results) σ.
Proof.
  destruct (fetch w (BASE_URL ++ lit "feeds_deduped.csv")) as [r|e] eqn:Hf.
  2: { left. unfold published. by rewrite (fetch_rejected w σ e). }
  destruct (ok r) eqn:Hok.
  2: { left. unfold published. by rewrite (http_status_not_ok w σ r). }
  destruct (text r) as [input|e] eqn:Ht.
  2: { left. unfold published. by rewrite (body_rejected w σ r e). }
  destruct (Papa_parse w input) as [results|msg|e] eqn:Hp.
  - right. exists results. unfold published at 1.
    by rewrite (parser_calls_complete w σ r input results).
  - left. unfold published. by rewrite (parser_calls_error w σ r input msg).
  - left. unfold published. by rewrite (parser_throws w σ r input e).
Qed.

Lemma loadFeeds_published_000 (w : World) (σ : Store Part000.Feed) :
  published (Part000.loadFeeds w) σ = feeds (view σ)
  ∨ ∃ results,
      published (Part000.loadFeeds w) σ
      = published (Part000.complete results) σ.
Proof.
  unfold published, Part000.loadFeeds. run_M.
  assert (∀ (input : jsstring) (τ : list Event),
    let σ' := {| view := view σ; trace := τ |} in
    let run := match Papa_parse w input with
               | CallsComplete results => Part000.complete results
               | CallsError msg => Part000.error_callback msg
               | ParseThrows e => λ σ'', (Throw e, σ'')
               end σ' in
    let final := match run with
                 | (Normal a, σ'') => (Normal a, σ'')
                 | (Throw e, σ'') =>
                     match Part000.message_of e with
                     | Normal m =>
                         (Normal (),
                          {| view := failed (view σ'')
                               (lit "Error loading or processing feeds: " ++ m
                                ++ lit ". Ensure 'feeds_deduped.csv' is accessible.");
                             trace := trace σ'' |})
                     | Throw e' => (Throw e', σ'')
                     end
                 end in
    feeds (view final.2) = feeds (view σ)
    ∨ ∃ results, feeds (view final.2)
                 = feeds (view (Part000.complete results σ).2)) as Hparse.
  { intros input τ. cbv zeta. destruct (Papa_parse w input) as [results|msg|e].
    - right. by exists results.
    - by left.
    - left. by destruct e as [? ?|[?|]|]. }
  destruct (window_fs w) as [readFile|].
  - destruct (readFile _) as [input|e].
    + apply (Hparse input).
    + left. by destruct e as [? ?|[?|]|].
  - destruct (fetch w _) as [r|e].
    + destruct (ok r); cbn [negb].
      * destruct (text r) as [input|e].
        -- apply (Hparse input).
        -- left. by destruct e as [? ?|[?|]|].
      * by left.
    + left. by destruct e as [? ?|[?|]|].
Qed.

End Load.

(** ** The collection *)

Section Collection.
Context {platform : Platform}.

(** C1. Whatever rows the parser hands to the complete handler, the handler
    finishes normally and every entry it publishes into [feeds] has a
    non-empty [feed_url]; the published URLs are, in order, exactly the
    non-empty [feed_url] columns, so a row whose [feed_url] is missing or
    empty contributes no entry.  Hence after a load from mount, in any
    world, every entry of the collection has a non-empty [feed_url].  Both
    revisions of the component. *)
Theorem C1_published_entries_have_feed_url
    (results : PapaParseResult) (w : World)
    (σ : Store App.Feed) (σ0 : Store Part000.Feed) :
  ((App.complete results σ).1 = Normal ()
   ∧ Forall (λ f, App.feed_url f ≠ []) (published (App.complete results) σ)
   ∧ App.feed_url <$> published (App.complete results) σ
     = filter (λ u, u ≠ []) (url_column <$> data results)
   ∧ Forall (λ f, App.feed_url f ≠ []) (published (App.loadFeeds w) mounted))
  ∧ ((Part000.complete results σ0).1 = Normal ()
     ∧ Forall (λ f, Part000.feed_url f ≠ [])
              (published (Part000.complete results) σ0)
     ∧ Part000.feed_url <$> published (Part000.complete results) σ0
       = filter (λ u, u ≠ []) (url_column <$> data results)
     ∧ Forall (λ f, Part000.feed_url f ≠ [])
              (published (Part000.loadFeeds w) mounted)).
Proof.
  split; split_and!.
  - by rewrite complete_runs.
  - apply complete_urls.
  - rewrite published_complete. apply kept_urls, built_entry_url.
  - destruct (loadFeeds_published w mounted) as [-> | [r ->]];
      [constructor | apply complete_urls].
  - done.
  - apply complete_urls_000.
  - rewrite published_complete_part000.
    apply (kept_urls Part000.feed_url built_entry_000), built_entry_000_url.
  - destruct (loadFeeds_published_000 w mounted) as [-> | [r ->]];
      [constructor | apply complete_urls_000].
Qed.

(** C5. A row whose [feed_title] column is missing or empty and whose
    [feed_url] column holds a non-empty URL yields a published entry whose
    title is the placeholder "Untitled Feed"; the entry carries the row's URL
    (also as its id) and the row's website URL. *)
Theorem C5_untitled_row_kept_with_placeholder
    (results : PapaParseResult) (σ : Store App.Feed)
    (i : nat) (row : gmap string jsstring) (url : jsstring) :
  data results !! i = Some row →
  blank row "feed_title" →
  row !! "feed_url"%string = Some url →
  url ≠ [] →
  ∃ f, f ∈ published (App.complete results) σ
       ∧ App.feed_title f = lit "Untitled Feed"
       ∧ App.feed_url f = url
       ∧ App.id f = url
       ∧ App.website_url f = default [] (row !! "website_url"%string).
Proof.
  intros Hrow Htitle Hurl Hne. exists (built_entry i row).
  rewrite published_complete. split_and!.
  - apply kept_entry; [done|]. rewrite blank_url_column.
    unfold url_column. by rewrite Hurl.
  - simpl. by destruct Htitle as [-> | ->].
  - simpl. rewrite Hurl. by destruct url.
  - simpl. rewrite Hurl. by destruct url.
  - simpl. apply or_else_empty.
Qed.

(** C9. Every published entry has [id] equal to its [feed_url], and that id
    is the non-empty [feed_url] column of the row it was built from; a row
    that takes the positional fallback [feed-<index>] has an empty
    [feed_url] and its entry is not published.  Both revisions. *)
Theorem C9_published_id_is_feed_url
    (results : PapaParseResult)
    (σ : Store App.Feed) (σ0 : Store Part000.Feed) :
  (Forall (λ f, App.id f = App.feed_url f ∧
                ∃ i row, data results !! i = Some row
                         ∧ row !! "feed_url"%string = Some (App.id f)
                         ∧ App.id f ≠ [])
          (published (App.complete results) σ)
   ∧ ∀ i row, data results !! i = Some row → blank row "feed_url" →
       App.id (built_entry i row)
         = lit "feed-" ++ number_to_string (N.of_nat i)
       ∧ built_entry i row ∉ published (App.complete results) σ)
  ∧ (Forall (λ f, Part000.id f = Part000.feed_url f ∧
                  ∃ i row, data results !! i = Some row
                           ∧ row !! "feed_url"%string = Some (Part000.id f)
                           ∧ Part000.id f ≠ [])
            (published (Part000.complete results) σ0)
     ∧ ∀ i row, data results !! i = Some row → blank row "feed_url" →
         Part000.id (built_entry_000 i row)
           = lit "feed-" ++ number_to_string (N.of_nat i)
         ∧ built_entry_000 i row ∉ published (Part000.complete results) σ0).
Proof.
  split; split.
  - rewrite published_complete. apply list.Forall_forall. intros f Hf.
    apply published_origin in Hf as (i & row & Hrow & Hurl & ->).
    rewrite blank_url_column in Hurl. unfold url_column in Hurl. simpl.
    destruct (row !! "feed_url"%string) as [[|c u]|] eqn:Hcol; try done.
    split; [done|]. exists i, row. by rewrite Hcol.
  - intros i row Hrow Hblank. split.
    + simpl. by destruct Hblank as [-> | ->].
    + rewrite published_complete, list_elem_of_filter, built_entry_url.
      apply blank_url_column in Hblank as ->. by intros [? _].
  - rewrite published_complete_part000. apply list.Forall_forall. intros f Hf.
    apply published_origin_000 in Hf as (i & row & Hrow & Hurl & ->).
    rewrite blank_url_column in Hurl. unfold url_column in Hurl. simpl.
    destruct (row !! "feed_url"%string) as [[|c u]|] eqn:Hcol; try done.
    split; [done|]. exists i, row. by rewrite Hcol.
  - intros i row Hrow Hblank. split.
    + simpl. by destruct Hblank as [-> | ->].
    + rewrite published_complete_part000. unfold Part000.sanitizedFeeds.
      rewrite list_elem_of_filter.
      change (Part000.feed_url (built_entry_000 i row)) with
        (or_else (row !! "feed_url"%string) []).
      rewrite or_else_empty. fold (url_column row).
      apply blank_url_column in Hblank as ->. by intros [? _].
Qed.

End Collection.

(** C7. A CSV text with an unterminated quoted field is served with status
    200; the parser reports the defect in [results.errors] and calls
    [complete].  Both revisions then publish the one row parsed before the
    defect, leave the error cell empty and show the directory: the load ends
    in the ready state with a partial list, not in the error state. *)
Theorem C7_unterminated_quote_publishes_partial_list :
  errors unterminated_results ≠ []
  ∧ App.loadFeeds (platform := sample_platform) unterminated_world mounted
    = (Normal (),
       {| view := {| feeds := [acme_entry]; loading := false; error := None;
                     searchTerm := [] |};
          trace := [Fetched (lit "/feeds/feeds_deduped.csv");
                    Parsed unterminated_csv] |})
  ∧ App.render (platform := sample_platform) (unicode := sample_unicode)
      (view (App.loadFeeds (platform := sample_platform)
               unterminated_world mounted).2)
    = Normal (App.Directory
                {| App.subtitle_count := 1;
                   App.search_value := [];
                   App.listing :=
                     App.Rows [shown_row (platform := sample_platform)
                                 acme_entry];
                   App.showing := 1;
                   App.of_total := 1;
                   App.filtered_note := false |})
  ∧ Part000.loadFeeds unterminated_world mounted
    = (Normal (),
       {| view := {| feeds := [acme_entry_000]; loading := false;
                     error := None; searchTerm := [] |};
          trace := [Fetched (lit "/feeds_deduped.csv");
                    Parsed unterminated_csv] |}).
Proof. split_and!; [done | by vm_compute..]. Qed.

(** ** The theorems at concrete inputs *)


Lemma C3_longer_search_with_sigma :
  well_formed (lit "news") = true
  ∧ (SIGMA ∉ lit "news")
  ∧ occurs_in (lit "news") (lit "news " ++ [0x395; 0x39B; 0x39B; 0x391; 0x3A3])
  ∧ App.filteredFeeds (unicode := sample_unicode) [acme_entry; other_entry]
      (lit "news " ++ [0x395; 0x39B; 0x39B; 0x391; 0x3A3])
    ⊆ App.filteredFeeds (unicode := sample_unicode) [acme_entry; other_entry]
        (lit "news").
Proof.
  assert (SIGMA ∉ lit "news") as Hsigma.
  { apply (bool_decide_unpack _). vm_compute. exact I. }
  assert (occurs_in (lit "news")
            (lit "news " ++ [0x395; 0x39B; 0x39B; 0x391; 0x3A3])) as Hocc.
  { exists [], (lit " " ++ [0x395; 0x39B; 0x39B; 0x391; 0x3A3]). reflexivity. }
  split; [reflexivity|]. split; [exact Hsigma|]. split; [exact Hocc|].
  exact (C3_filter_monotonic_without_capital_sigma
           (unicode := sample_unicode)
           [acme_entry; other_entry] (lit "news")
           (lit "news " ++ [0x395; 0x39B; 0x39B; 0x391; 0x3A3])
           eq_refl Hsigma Hocc).
Defined.

Lemma C5_untitled_row :
  ∃ f, f ∈ published (App.complete (platform := sample_platform) untitled_rows)
             mounted
       ∧ App.feed_title f = lit "Untitled Feed"
       ∧ App.feed_url f = lit "http://c.org/feed"
       ∧ App.id f = lit "http://c.org/feed"
       ∧ App.website_url f = lit "c.org".
Proof.
  apply (C5_untitled_row_kept_with_placeholder
           (platform := sample_platform) untitled_rows mounted 1
           (row_of [("feed_url", "http://c.org/feed");
                    ("website_url", "c.org")]%string)
           (lit "http://c.org/feed")).
  - reflexivity.
  - left. vm_compute. reflexivity.
  - vm_compute. reflexivity.
  - vm_compute. discriminate.
Defined.

Lemma C6_plain_feed_url :
  well_formed (lit "http://a.com/rss") = true
  ∧ App.getInoreaderUrl (lit "http://a.com/rss")
    = Normal (lit "https://www.inoreader.com/search/feeds/http%3A%2F%2Fa.com%2Frss").
Proof.
  split; [reflexivity|].
  exact (C6_subscribe_link_of_well_formed_url (lit "http://a.com/rss") eq_refl).
Defined.

Lemma C8_bare_host :
  lit "example.org/feed" ≠ []
  ∧ App.getFaviconUrl (platform := sample_platform) (lit "example.org/feed")
    = Normal (lit "https://www.google.com/s2/favicons?domain=example.org")
  ∧ App.getFaviconUrl (platform := sample_platform) []
    = Normal (lit "/feeds/default-favicon.png")
  ∧ App.getFaviconUrl (platform := sample_platform) (lit "http://")
    = Normal (lit "/feeds/default-favicon.png").
Proof.
  split; [vm_compute; discriminate|]. split_and!.
  - destruct (C8_getFaviconUrl_total (platform := sample_platform)
                (lit "example.org/feed")) as (_ & _ & _ & Hok).
    apply (Hok {| href := lit "https://example.org/feed";
                  hostname := lit "example.org" |}).
    + vm_compute. discriminate.
    + vm_compute. reflexivity.
  - destruct (C8_getFaviconUrl_total (platform := sample_platform) [])
      as (_ & Hempty & _ & _).
    apply Hempty. reflexivity.
  - destruct (C8_getFaviconUrl_total (platform := sample_platform)
                (lit "http://")) as (_ & _ & Hthrow & _).
    apply (Hthrow invalid_URL).
    + vm_compute. discriminate.
    + vm_compute. reflexivity.
Defined.

Lemma C9_row_without_url :
  data untitled_rows !! 0%nat = Some (row_of [("feed_title", "No address")]%string)
  ∧ blank (row_of [("feed_title", "No address")]%string) "feed_url"
  ∧ App.id (built_entry (platform := sample_platform) 0
              (row_of [("feed_title", "No address")]%string))
    = lit "feed-0"
  ∧ built_entry (platform := sample_platform) 0
      (row_of [("feed_title", "No address")]%string)
    ∉ published (App.complete (platform := sample_platform) untitled_rows)
        mounted.
Proof.
  assert (blank (row_of [("feed_title", "No address")]%string) "feed_url")
    as Hblank.
  { left. vm_compute. reflexivity. }
  split; [reflexivity|]. split; [exact Hblank|].
  destruct (C9_published_id_is_feed_url (platform := sample_platform)
              untitled_rows mounted mounted) as [[_ Hfallback] _].
  exact (Hfallback 0%nat (row_of [("feed_title", "No address")]%string)
           eq_refl Hblank).
Defined.

Lemma C10_two_survivors :
  NoDup [acme_entry; other_entry]
  ∧ App.filteredFeeds (unicode := sample_unicode)
      [acme_entry; other_entry] (lit "e") !! 0%nat
    = Some acme_entry
  ∧ App.filteredFeeds (unicode := sample_unicode)
      [acme_entry; other_entry] (lit "e") !! 1%nat
    = Some other_entry
  ∧ NoDup (App.filteredFeeds (unicode := sample_unicode)
             [acme_entry; other_entry] (lit "e"))
  ∧ ∃ i' j', (i' < j')%nat
             ∧ [acme_entry; other_entry] !! i' = Some acme_entry
             ∧ [acme_entry; other_entry] !! j' = Some other_entry.
Proof.
  assert (NoDup [acme_entry; other_entry]) as Hnd.
  { apply NoDup_cons_2.
    - intros H. apply list_elem_of_singleton in H. discriminate H.
    - apply NoDup_singleton. }
  destruct (C10_filtered_is_ordered_subsequence (unicode := sample_unicode)
              [acme_entry; other_entry] (lit "e")) as (_ & _ & Hdup & Horder).
  split; [exact Hnd|]. split; [reflexivity|]. split; [reflexivity|].
  split; [exact (Hdup Hnd)|].
  apply (Horder 0%nat 1%nat acme_entry other_entry);
    [lia | reflexivity | reflexivity].
Defined.

(** ** Further properties of the load *)

Section LoadBehaviour.
Context {platform : Platform} {unicode : Unicode}.

Ltac run_load :=
  unfold try_catch_M, await_fetch, Papa_parse_with, mbind, M_bind, emit, lift,
    throw, setError, setLoading, setFeeds, update;
  cbn [view trace negb].

Lemma load_error_message_nonempty (e : Thrown) :
  ∃ c m, load_error_message e = c :: m.
Proof. by eexists _, _. Qed.

Lemma parse_error_message_nonempty (m : jsstring) :
  ∃ c m', lit "Error parsing CSV: " ++ m = c :: m'.
Proof. by eexists _, _. Qed.

Lemma empty_search_published (results : PapaParseResult)
    (σ : Store App.Feed) :
  App.filteredFeeds (published (App.complete results) σ) []
  = published (App.complete results) σ.
Proof.
  apply filter_all. eapply list.Forall_impl; [apply published_titled|].
  intros f Hf. simpl in Hf. rewrite Hf. simpl.
  change (toLowerCase []) with (@nil N). by rewrite includes_empty.
Qed.

(** X2. When the resource cannot be had (the fetch rejects, the status is
    not ok, or reading the body fails), the load publishes the catch clause's
    message for what was thrown (for a bad status: "HTTP error! status: "
    followed by the status number), puts the loading flag down, leaves the
    feeds as they were and never calls the parser: the trace grows by the one
    fetch. *)
Theorem X2_unreachable_resource (w : World) (σ : Store App.Feed) :
  (∀ e, fetch w (BASE_URL ++ lit "feeds_deduped.csv") = Throw e →
     App.loadFeeds w σ =
     (Normal (),
      {| view := failed (view σ) (load_error_message e);
         trace := trace σ ++ [Fetched (BASE_URL ++ lit "feeds_deduped.csv")] |}))
  ∧ (∀ r, fetch w (BASE_URL ++ lit "feeds_deduped.csv") = Normal r →
       ok r = false →
       App.loadFeeds w σ =
       (Normal (),
        {| view := failed (view σ)
                     (lit "Error loading or processing feeds: "
                      ++ (lit "HTTP error! status: "
                          ++ number_to_string (status r))
                      ++ lit ". Ensure 'feeds_deduped.csv' is accessible.");
           trace := trace σ
                    ++ [Fetched (BASE_URL ++ lit "feeds_deduped.csv")] |}))
  ∧ (∀ r e, fetch w (BASE_URL ++ lit "feeds_deduped.csv") = Normal r →
       ok r = true → text r = Throw e →
       App.loadFeeds w σ =
       (Normal (),
        {| view := failed (view σ) (load_error_message e);
           trace := trace σ
                    ++ [Fetched (BASE_URL ++ lit "feeds_deduped.csv")] |})).
Proof.
  split_and!.
  - intros e H. by apply fetch_rejected.
  - intros r H Hok. by rewrite (http_status_not_ok w σ r).
  - intros r e H Hok Ht. by apply (body_rejected w σ r e).
Qed.

(** X3. When the body is read and the parser fails, the load ends in the
    error state after one fetch and one parse, with the feeds as they were:
    if the parser calls the error callback the message is "Error parsing
    CSV: " followed by the error's message, and if it throws, the message is
    the catch clause's. *)
Theorem X3_parser_failure (w : World) (σ : Store App.Feed) (r : Response)
    (input : jsstring) :
  fetch w (BASE_URL ++ lit "feeds_deduped.csv") = Normal r →
  ok r = true →
  text r = Normal input →
  (∀ m, Papa_parse w input = CallsError m →
     App.loadFeeds w σ =
     (Normal (),
      {| view := failed (view σ) (lit "Error parsing CSV: " ++ m);
         trace := (trace σ ++ [Fetched (BASE_URL ++ lit "feeds_deduped.csv")])
                  ++ [Parsed input] |}))
  ∧ (∀ e, Papa_parse w input = ParseThrows e →
       App.loadFeeds w σ =
       (Normal (),
        {| view := failed (view σ) (load_error_message e);
           trace := (trace σ
                     ++ [Fetched (BASE_URL ++ lit "feeds_deduped.csv")])
                    ++ [Parsed input] |})).
Proof.
  intros H Hok Ht. split.
  - intros m Hp. by apply (parser_calls_error w σ r input m).
  - intros e Hp. by apply (parser_throws w σ r input e).
Qed.

End LoadBehaviour.

(** ** The earlier revision *)

Section EarlierRevision.
Context {platform : Platform} {unicode : Unicode}.

Ltac run_load :=
  unfold try_catch_M, await_fetch, Papa_parse_with, mbind, M_bind, emit, lift,
    throw, setError, setLoading, setFeeds, update;
  cbn [view trace negb].

Lemma fetches_snoc (τ : list Event) (ev : Event) :
  fetches (τ ++ [ev]) = (fetches τ + if is_fetch ev then 1 else 0)%nat.
Proof.
  unfold fetches. rewrite list.filter_app, length_app. f_equal.
  rewrite filter_cons. by destruct (is_fetch ev).
Qed.

Lemma file_reads_snoc (τ : list Event) (ev : Event) :
  file_reads (τ ++ [ev]) = (file_reads τ + if is_file_read ev then 1 else 0)%nat.
Proof.
  unfold file_reads. rewrite list.filter_app, length_app. f_equal.
  rewrite filter_cons. by destruct (is_file_read ev).
Qed.

(** X5. The earlier revision's load either settles with the loading flag
    down or, when what was thrown is null or undefined, fails inside its
    catch clause while reading [err.message]: then nothing has been
    published and the page stays on the loading screen.  A fetch rejected
    with null or undefined is such a case. *)
Theorem X5_part000_load_may_stay_loading (w : World) :
  match (Part000.loadFeeds w mounted).1 with
  | Normal _ => loading (view (Part000.loadFeeds w mounted).2) = false
  | Throw _ => view (Part000.loadFeeds w mounted).2 = view mounted
  end
  ∧ (window_fs w = None →
     fetch w (lit "/feeds_deduped.csv") = Throw Nullish →
     (∃ e, (Part000.loadFeeds w mounted).1 = Throw e)
     ∧ loading (view (Part000.loadFeeds w mounted).2) = true
     ∧ error (view (Part000.loadFeeds w mounted).2) = None).
Proof.
  split.
  - unfold Part000.loadFeeds. run_load.
    destruct (window_fs w) as [readFile|].
    + destruct (readFile _) as [input|e]; run_load.
      * destruct (Papa_parse w input) as [results|msg|e]; try done.
        by destruct e as [? ?|[?|]|].
      * by destruct e as [? ?|[?|]|].
    + destruct (fetch w _) as [r|e]; run_load.
      * destruct (ok r); cbn [negb]; [|done].
        destruct (text r) as [input|e]; run_load.
        -- destruct (Papa_parse w input) as [results|msg|e]; try done.
           by destruct e as [? ?|[?|]|].
        -- by destruct e as [? ?|[?|]|].
      * by destruct e as [? ?|[?|]|].
  - intros Hfs Hfetch. unfold Part000.loadFeeds. run_load.
    rewrite Hfs. run_load. rewrite Hfetch. split_and!; [by eexists|done..].
Qed.

(** X6. The earlier revision reads the file through [window.fs] when the
    page has one and then never fetches; without it, it fetches
    [/feeds_deduped.csv] once and reads no file.  Either request is the
    first thing the load does. *)
Theorem X6_part000_file_or_fetch (w : World) (σ : Store Part000.Feed) :
  (∀ readFile, window_fs w = Some readFile →
     fetches (trace (Part000.loadFeeds w σ).2) = fetches (trace σ)
     ∧ file_reads (trace (Part000.loadFeeds w σ).2) = S (file_reads (trace σ))
     ∧ ∃ τ, trace (Part000.loadFeeds w σ).2
            = trace σ ++ FileRead (lit "feeds_deduped.csv") :: τ)
  ∧ (window_fs w = None →
     fetches (trace (Part000.loadFeeds w σ).2) = S (fetches (trace σ))
     ∧ file_reads (trace (Part000.loadFeeds w σ).2) = file_reads (trace σ)
     ∧ ∃ τ, trace (Part000.loadFeeds w σ).2
            = trace σ ++ Fetched (lit "/feeds_deduped.csv") :: τ).
Proof.
  assert (∀ ev (input : jsstring) (run : Completion () * Store Part000.Feed),
    (∃ τ, trace run.2 = (trace σ ++ [ev]) ++ τ ∧ (τ = [] ∨ τ = [Parsed input])) →
    fetches (trace run.2) = (fetches σ.(trace) + if is_fetch ev then 1 else 0)%nat
    ∧ file_reads (trace run.2)
      = (file_reads σ.(trace) + if is_file_read ev then 1 else 0)%nat
    ∧ ∃ τ, trace run.2 = trace σ ++ ev :: τ) as Hcount.
  { intros ev input run (τ & -> & [-> | ->]).
    - rewrite app_nil_r, fetches_snoc, file_reads_snoc. split_and!; eauto.
    - rewrite fetches_snoc, file_reads_snoc, fetches_snoc, file_reads_snoc.
      cbn [is_fetch is_file_read]. rewrite !Nat.add_0_r.
      split_and!; [done..|]. exists [Parsed input]. by rewrite <- app_assoc. }
  assert (∀ ev, ev = FileRead (lit "feeds_deduped.csv")
                ∨ ev = Fetched (lit "/feeds_deduped.csv") →
    (window_fs w = None → ev = Fetched (lit "/feeds_deduped.csv")) →
    (is_Some (window_fs w) → ev = FileRead (lit "feeds_deduped.csv")) →
    ∃ input τ, trace (Part000.loadFeeds w σ).2 = (trace σ ++ [ev]) ++ τ
               ∧ (τ = [] ∨ τ = [Parsed input])) as Htrace.
  { intros ev _ Hnone Hsome. unfold Part000.loadFeeds. run_load.
    destruct (window_fs w) as [readFile|].
    - rewrite (Hsome (mk_is_Some _ _ eq_refl)).
      destruct (readFile _) as [input|e]; run_load.
      + exists input, [Parsed input]. split; [|by right].
        destruct (Papa_parse w input) as [results|msg|e]; try done.
        by destruct e as [? ?|[?|]|].
      + exists [], []. split; [|by left].
        rewrite app_nil_r. by destruct e as [? ?|[?|]|].
    - rewrite (Hnone eq_refl).
      destruct (fetch w _) as [r|e]; run_load.
      + destruct (ok r); cbn [negb].
        * destruct (text r) as [input|e]; run_load.
          -- exists input, [Parsed input]. split; [|by right].
             destruct (Papa_parse w input) as [results|msg|e]; try done.
             by destruct e as [? ?|[?|]|].
          -- exists [], []. split; [|by left].
             rewrite app_nil_r. by destruct e as [? ?|[?|]|].
        * exists [], []. split; [|by left]. by rewrite app_nil_r.
      + exists [], []. split; [|by left].
        rewrite app_nil_r. by destruct e as [? ?|[?|]|]. }
  split.
  - intros readFile Hfs.
    destruct (Htrace (FileRead (lit "feeds_deduped.csv"))) as (input & τ & H);
      [by left | by rewrite Hfs | done |].
    destruct (Hcount (FileRead (lit "feeds_deduped.csv")) input
                (Part000.loadFeeds w σ)) as (Hf & Hr & Ht); [by exists τ|].
    cbn [is_fetch is_file_read] in Hf, Hr. split_and!; [lia | lia | done].
  - intros Hfs.
    destruct (Htrace (Fetched (lit "/feeds_deduped.csv"))) as (input & τ & H);
      [by right | done | rewrite Hfs; by intros [? ?] |].
    destruct (Hcount (Fetched (lit "/feeds_deduped.csv")) input
                (Part000.loadFeeds w σ)) as (Hf & Hr & Ht); [by exists τ|].
    cbn [is_fetch is_file_read] in Hf, Hr. split_and!; [lia | lia | done].
Qed.

(** X7. The earlier revision's favicon helper never throws: it answers
    [null] for an empty website URL and whenever the URL constructor rejects
    the URL, which it is handed as it stands, and otherwise the icon address
    of the favicon service for the parsed hostname. *)
Theorem X7_part000_getFaviconUrl (websiteUrl : jsstring) :
  (∃ answer, Part000.getFaviconUrl websiteUrl = Normal answer)
  ∧ (websiteUrl = [] → Part000.getFaviconUrl websiteUrl = Normal None)
  ∧ (∀ e, new_URL websiteUrl = Throw e →
       Part000.getFaviconUrl websiteUrl = Normal None)
  ∧ (∀ url, websiteUrl ≠ [] → new_URL websiteUrl = Normal url →
       Part000.getFaviconUrl websiteUrl
       = Normal (Some (lit "https://external-content.duckduckgo.com/ip3/"
                       ++ hostname url ++ lit ".ico"))).
Proof.
  unfold Part000.getFaviconUrl. split_and!.
  - destruct websiteUrl as [|c s]; [by eexists|]. cbn [truthy negb].
    destruct (new_URL _); by eexists.
  - by intros ->.
  - intros e He. destruct websiteUrl as [|c s]; [done|]. cbn [truthy negb].
    by rewrite He.
  - intros url Hne Hurl. destruct websiteUrl as [|c s]; [done|].
    cbn [truthy negb]. by rewrite Hurl.
Qed.

Lemma fmap_filter_agree {A B} (f : A → B) (P : A → Prop) (Q : B → Prop)
    `{∀ x, Decision (P x)} `{∀ y, Decision (Q y)} (l : list A) :
  (∀ x, P x ↔ Q (f x)) →
  f <$> filter P l = filter Q (f <$> l).
Proof.
  intros HPQ. induction l as [|x l IH]; [done|].
  rewrite fmap_cons, !filter_cons.
  destruct (decide (P x)) as [HP|HP], (decide (Q (f x))) as [HQ|HQ].
  - by rewrite fmap_cons, IH.
  - by apply HPQ in HP.
  - by apply HPQ in HQ.
  - done.
Qed.

(** X8. The two revisions agree up to the favicon: from the same parse
    result they publish the same entries in the same order, and for every
    list and search string they keep the same entries. *)
Theorem X8_revisions_agree_up_to_favicon
    (results : PapaParseResult) (σ : Store App.Feed)
    (σ0 : Store Part000.Feed) (feeds : list App.Feed) (search : jsstring) :
  forget_favicon <$> published (App.complete results) σ
  = published (Part000.complete results) σ0
  ∧ forget_favicon <$> App.filteredFeeds feeds search
    = Part000.filteredFeeds (forget_favicon <$> feeds) search.
Proof.
  split.
  - rewrite published_complete, published_complete_part000.
    unfold Part000.sanitizedFeeds.
    rewrite (fmap_filter_agree forget_favicon _
               (λ feed, truthy (Part000.feed_url feed))) by done.
    f_equal. by rewrite fmap_imap.
  - unfold App.filteredFeeds, Part000.filteredFeeds.
    by apply fmap_filter_agree.
Qed.

End EarlierRevision.

(** ** Further properties of the subscribe link *)

Section LinkEncoding.

Ltac div_lia := zify; Z.to_euclidean_division_equations; lia.

Lemma lor_shifted (a n x : N) :
  x < 2 ^ n → N.lor (a * 2 ^ n) x = a * 2 ^ n + x.
Proof.
  intros Hx. rewrite <- N.lxor_lor, <- N.add_nocarry_lxor; [done| |];
    apply N.bits_inj_0; intros i; rewrite N.land_spec;
    (destruct (N.lt_ge_cases i n) as [Hi|Hi];
       [by rewrite N.mul_pow2_bits_low
       |rewrite <- (N.mod_small x (2 ^ n)) by done;
        by rewrite N.mod_pow2_bits_high, andb_false_r]).
Qed.

Lemma utf8_octets_arith (cp : N) :
  cp < 0x110000 →
  utf8_octets cp =
  if cp <? 0x80 then [cp]
  else if cp <? 0x800 then [0xC0 + cp / 64; 0x80 + cp mod 64]
  else if cp <? 0x10000 then
    [0xE0 + cp / 4096; 0x80 + (cp / 64) mod 64; 0x80 + cp mod 64]
  else
    [0xF0 + cp / 262144; 0x80 + (cp / 4096) mod 64;
     0x80 + (cp / 64) mod 64; 0x80 + cp mod 64].
Proof.
  intros Hcp. unfold utf8_octets.
  change 0x3F with (N.ones 6). rewrite !N.land_ones, !N.shiftr_div_pow2.
  change (2 ^ 6) with 64. change (2 ^ 12) with 4096.
  change (2 ^ 18) with 262144.
  assert (∀ x, N.lor 0x80 (x mod 64) = 0x80 + x mod 64) as H80.
  { intros x. apply (lor_shifted 2 6). change (2 ^ 6) with 64. div_lia. }
  rewrite !H80.
  destruct (N.ltb_spec cp 0x80); [done|].
  destruct (N.ltb_spec cp 0x800).
  { f_equal. apply (lor_shifted 6 5). change (2 ^ 5) with 32. div_lia. }
  destruct (N.ltb_spec cp 0x10000).
  { f_equal. apply (lor_shifted 14 4). change (2 ^ 4) with 16. div_lia. }
  f_equal. apply (lor_shifted 30 3). change (2 ^ 3) with 8. div_lia.
Qed.

Lemma utf8_octets_bytes (cp : N) :
  cp < 0x110000 → Forall (λ b, b < 256) (utf8_octets cp).
Proof.
  intros Hcp. rewrite utf8_octets_arith by done.
  destruct (N.ltb_spec cp 0x80); [|destruct (N.ltb_spec cp 0x800);
    [|destruct (N.ltb_spec cp 0x10000)]];
    repeat (apply List.Forall_cons; [div_lia|]); apply List.Forall_nil.
Qed.

Lemma uri_unescaped_spec (c : N) :
  uri_unescaped c = true ↔
  0x41 ≤ c ≤ 0x5A ∨ 0x61 ≤ c ≤ 0x7A ∨ 0x30 ≤ c ≤ 0x39
  ∨ c = 0x2D ∨ c = 0x5F ∨ c = 0x2E ∨ c = 0x21 ∨ c = 0x7E ∨ c = 0x2A
  ∨ c = 0x27 ∨ c = 0x28 ∨ c = 0x29.
Proof.
  unfold uri_unescaped. rewrite !orb_true_iff, !in_range_spec, !N.eqb_eq.
  tauto.
Qed.

Lemma hex_digit_unescaped (n : N) :
  n < 16 → uri_unescaped (hex_digit n) = true.
Proof.
  intros Hn. apply uri_unescaped_spec. unfold hex_digit.
  destruct (N.ltb_spec n 10); lia.
Qed.

Lemma unhex_hex_digit (n : N) : n < 16 → unhex (hex_digit n) = n.
Proof.
  intros Hn. unfold unhex, hex_digit.
  destruct (N.ltb_spec n 10).
  - destruct (N.ltb_spec (48 + n) 65); lia.
  - destruct (N.ltb_spec (55 + n) 65); lia.
Qed.

Lemma encodeURIComponent_ill_formed (s : jsstring) :
  well_formed s = false → encodeURIComponent s = Throw URIError.
Proof.
  induction s as [|c rest IH1 IH2] using pairwise_ind; [done|].
  cbn [encodeURIComponent well_formed].
  destruct (uri_unescaped c) eqn:Hc.
  - destruct (is_low_surrogate c) eqn:Hl.
    { by rewrite (surrogate_escaped c) in Hc by by rewrite Hl. }
    destruct (is_high_surrogate c) eqn:Hh.
    { by rewrite (surrogate_escaped c) in Hc by by rewrite Hl, Hh. }
    intros Hwf. by rewrite (IH1 Hwf).
  - destruct (is_low_surrogate c); [done|].
    destruct (is_high_surrogate c).
    + destruct rest as [|d rest']; [done|].
      destruct (is_low_surrogate d); [|done]. cbn [andb].
      intros Hwf. by rewrite (IH2 d rest' eq_refl Hwf).
    + intros Hwf. by rewrite (IH1 Hwf).
Qed.

(** X9. The subscribe-link helper returns exactly on the well-formed feed
    URLs; on any other string (one with an unpaired surrogate half) it
    throws URIError, and it throws nothing else. *)
Theorem X9_subscribe_link_throws_on_ill_formed (feedUrl : jsstring) :
  (well_formed feedUrl = true ↔ ∃ link, App.getInoreaderUrl feedUrl = Normal link)
  ∧ (well_formed feedUrl = false ↔ App.getInoreaderUrl feedUrl = Throw URIError)
  ∧ (∀ e, App.getInoreaderUrl feedUrl = Throw e → e = URIError).
Proof.
  unfold App.getInoreaderUrl, String_.
  destruct (well_formed feedUrl) eqn:Hwf.
  - rewrite encodeURIComponent_well_formed by done. split; [|split].
    + split; [intros _; by eexists|done].
    + split; [done|]. by intros [=].
    + by intros e [=].
  - rewrite encodeURIComponent_ill_formed by done. split; [|split].
    + split; [done|]. by intros [link [=]].
    + done.
    + by intros e [= <-].
Qed.

Lemma percent_encode_safe (octets : list N) :
  Forall (λ b, b < 256) octets →
  Forall (λ c, uri_unescaped c = true ∨ c = 37) (percent_encode octets).
Proof.
  unfold percent_encode. induction 1 as [|b octets Hb _ IH]; [constructor|].
  cbn [mbind list_bind]. apply Forall_app. split; [|done].
  destruct (uri_unescaped b) eqn:Hu.
  - apply List.Forall_cons; [by left | apply List.Forall_nil].
  - unfold escape_octet.
    apply List.Forall_cons; [by right|].
    apply List.Forall_cons; [left; apply hex_digit_unescaped; div_lia|].
    apply List.Forall_cons; [left; apply hex_digit_unescaped; div_lia|].
    apply List.Forall_nil.
Qed.

Lemma pair_code_point_bound (c d : N) :
  is_high_surrogate c = true → is_low_surrogate d = true →
  0x10000 ≤ pair_code_point c d < 0x110000.
Proof.
  unfold is_high_surrogate, is_low_surrogate, pair_code_point.
  rewrite !in_range_spec. lia.
Qed.

Lemma code_points_bound (s : jsstring) :
  code_unit_string s → Forall (λ cp, cp < 0x110000) (code_points s).
Proof.
  induction s as [|c rest IH1 IH2] using pairwise_ind; [constructor|].
  intros [Hc Hrest]%list.Forall_cons. cbn [code_points].
  destruct (is_high_surrogate c) eqn:Hh.
  - destruct rest as [|d rest'].
    { apply List.Forall_cons; [lia | apply List.Forall_nil]. }
    apply list.Forall_cons in Hrest as Hd. destruct Hd as [Hd Hrest'].
    destruct (is_low_surrogate d) eqn:Hl.
    + apply List.Forall_cons; [by apply pair_code_point_bound|].
      by apply (IH2 d rest').
    + apply List.Forall_cons; [lia|]. by apply IH1.
  - apply List.Forall_cons; [lia|]. by apply IH1.
Qed.

Lemma utf8_bytes (cps : list N) :
  Forall (λ cp, cp < 0x110000) cps →
  Forall (λ b, b < 256) (cps ≫= utf8_octets).
Proof.
  induction 1 as [|cp cps Hcp _ IH]; [constructor|].
  cbn [mbind list_bind]. apply Forall_app. split; [|done].
  by apply utf8_octets_bytes.
Qed.

Lemma percent_encoding_unreserved (s : jsstring) :
  Forall (λ c, uri_unescaped c = true) s → percent_encoding s = s.
Proof.
  unfold percent_encoding, percent_encode.
  induction 1 as [|c s Hc _ IH]; [done|].
  cbn [code_points].
  replace (is_high_surrogate c) with false.
  2: { symmetry. apply not_true_is_false. intros Hh.
       rewrite (surrogate_escaped c) in Hc; [done|]. by rewrite Hh, orb_true_r. }
  cbn [mbind list_bind]. unfold utf8_octets at 1.
  apply unescaped_ascii in Hc as Hlt. apply N.ltb_lt in Hlt as ->.
  cbn [app mbind list_bind]. rewrite Hc. cbn [app]. f_equal. apply IH.
Qed.

(** X10. A subscribe link is the fixed address followed only by unreserved
    characters and percent signs (the address part has no slash, question
    mark, ampersand or hash of its own), and a feed URL made of unreserved
    characters alone is appended as it stands. *)
Theorem X10_subscribe_link_is_url_safe (feedUrl link : jsstring) :
  code_unit_string feedUrl →
  App.getInoreaderUrl feedUrl = Normal link →
  ∃ encoded,
    link = inoreader_template ++ encoded
    ∧ Forall (λ c, uri_unescaped c = true ∨ c = 37) encoded
    ∧ (Forall (λ c, uri_unescaped c = true) feedUrl → encoded = feedUrl).
Proof.
  intros Hunits Hlink. unfold App.getInoreaderUrl, String_ in Hlink.
  destruct (well_formed feedUrl) eqn:Hwf.
  - rewrite encodeURIComponent_well_formed in Hlink by done.
    injection Hlink as <-. exists (percent_encoding feedUrl). split_and!.
    + done.
    + by apply percent_encode_safe, utf8_bytes, code_points_bound.
    + apply percent_encoding_unreserved.
  - by rewrite encodeURIComponent_ill_formed in Hlink.
Qed.

Lemma unescape_percent_encode (octets : list N) :
  Forall (λ b, b < 256) octets → unescape (percent_encode octets) = octets.
Proof.
  unfold percent_encode. induction 1 as [|b octets Hb _ IH]; [done|].
  cbn [mbind list_bind]. destruct (uri_unescaped b) eqn:Hu.
  - cbn [app unescape]. destruct (N.eqb_spec b 37) as [->|_]; [done|].
    by rewrite IH.
  - unfold escape_octet in *. cbn [app unescape N.eqb Pos.eqb].
    rewrite IH, !unhex_hex_digit by div_lia. f_equal. div_lia.
Qed.

Lemma utf8_code_points_octets (cps : list N) :
  Forall (λ cp, cp < 0x110000) cps →
  utf8_code_points (cps ≫= utf8_octets) = cps.
Proof.
  induction 1 as [|cp cps Hcp _ IH]; [done|].
  cbn [mbind list_bind]. rewrite utf8_octets_arith by done.
  destruct (N.ltb_spec cp 0x80) as [H1|H1].
  { cbn [app utf8_code_points]. apply N.ltb_lt in H1 as ->. by rewrite IH. }
  destruct (N.ltb_spec cp 0x800) as [H2|H2].
  { cbn [app utf8_code_points].
    destruct (N.ltb_spec (0xC0 + cp / 64) 0x80); [div_lia|].
    destruct (N.ltb_spec (0xC0 + cp / 64) 0xE0); [|div_lia].
    rewrite IH. f_equal. div_lia. }
  destruct (N.ltb_spec cp 0x10000) as [H3|H3].
  { cbn [app utf8_code_points].
    destruct (N.ltb_spec (0xE0 + cp / 4096) 0x80); [div_lia|].
    destruct (N.ltb_spec (0xE0 + cp / 4096) 0xE0); [div_lia|].
    destruct (N.ltb_spec (0xE0 + cp / 4096) 0xF0); [|div_lia].
    rewrite IH. f_equal. div_lia. }
  cbn [app utf8_code_points].
  destruct (N.ltb_spec (0xF0 + cp / 262144) 0x80); [div_lia|].
  destruct (N.ltb_spec (0xF0 + cp / 262144) 0xE0); [div_lia|].
  destruct (N.ltb_spec (0xF0 + cp / 262144) 0xF0); [div_lia|].
  rewrite IH. f_equal. div_lia.
Qed.

Lemma from_code_points_code_points (s : jsstring) :
  well_formed s = true → code_unit_string s →
  from_code_points (code_points s) = s.
Proof.
  unfold from_code_points.
  induction s as [|c rest IH1 IH2] using pairwise_ind; [done|].
  cbn [well_formed code_points]. intros Hwf [Hc Hrest]%list.Forall_cons.
  destruct (is_low_surrogate c); [done|].
  destruct (is_high_surrogate c) eqn:Hh.
  - destruct rest as [|d rest']; [done|].
    apply andb_true_iff in Hwf as [Hd Hwf]. rewrite Hd.
    apply list.Forall_cons in Hrest as [_ Hrest'].
    cbn [mbind list_bind]. rewrite (IH2 d rest') by done.
    unfold code_units.
    destruct (pair_code_point_bound c d Hh Hd) as [Hlo _].
    destruct (N.ltb_spec (pair_code_point c d) 0x10000); [lia|].
    cbn [app]. unfold pair_code_point.
    apply in_range_spec in Hh, Hd. f_equal; [|f_equal]; div_lia.
  - cbn [mbind list_bind]. rewrite IH1 by done. unfold code_units.
    by apply N.ltb_lt in Hc as ->.
Qed.

(** The string can be read back from its percent-encoding. *)
Lemma percent_encoding_read_back (s : jsstring) :
  well_formed s = true → code_unit_string s →
  from_code_points (utf8_code_points (unescape (percent_encoding s))) = s.
Proof.
  intros Hwf Hunits. unfold percent_encoding.
  rewrite unescape_percent_encode by by apply utf8_bytes, code_points_bound.
  rewrite utf8_code_points_octets by by apply code_points_bound.
  by apply from_code_points_code_points.
Qed.

(** X11. Subscribe links tell feeds apart: two well-formed feed URLs with
    the same subscribe link are the same URL. *)
Theorem X11_subscribe_link_injective (feedUrl feedUrl' : jsstring) :
  well_formed feedUrl = true → code_unit_string feedUrl →
  well_formed feedUrl' = true → code_unit_string feedUrl' →
  App.getInoreaderUrl feedUrl = App.getInoreaderUrl feedUrl' →
  feedUrl = feedUrl'.
Proof.
  intros Hwf Hunits Hwf' Hunits'. unfold App.getInoreaderUrl, String_.
  rewrite !encodeURIComponent_well_formed by done.
  cbn [mbind Completion_bind]. intros [= Heq].
  rewrite <- (percent_encoding_read_back feedUrl),
          <- (percent_encoding_read_back feedUrl') by done.
  by rewrite Heq.
Qed.

End LinkEncoding.

(** ** Further properties of the filter *)

Section CaseInsensitivity.
Context {unicode : Unicode}.

Lemma settled_image (m : list N) :
  forallb (λ d, negb (d =? SIGMA) && scalar_value d
                && bool_decide (Lowercase_Mapping d = [d])) m = true →
  forallb scalar_value m = true
  ∧ (SIGMA ∉ m)
  ∧ m ≫= Lowercase_Mapping = m.
Proof.
  induction m as [|d m IH].
  - intros _. split_and!; [done|apply not_elem_of_nil|done].
  - cbn [forallb]. intros [Hd Hm]%andb_true_iff.
    destruct (IH Hm) as (Hscalar & Hsigma & Hfix).
    apply andb_true_iff in Hd as [Hd Hown].
    apply andb_true_iff in Hd as [Hne Hd].
    apply negb_true_iff, N.eqb_neq in Hne.
    apply bool_decide_eq_true_1 in Hown. split_and!.
    + cbn [forallb]. by rewrite Hd, Hscalar.
    + by apply not_elem_of_cons.
    + cbn [mbind list_bind] in *. by rewrite Hown, Hfix.
Qed.

Lemma settled_lower (l : list N) :
  forallb settled_letter l = true →
  (SIGMA ∉ l)
  ∧ forallb scalar_value (l ≫= Lowercase_Mapping) = true
  ∧ (SIGMA ∉ l ≫= Lowercase_Mapping)
  ∧ (l ≫= Lowercase_Mapping) ≫= Lowercase_Mapping = l ≫= Lowercase_Mapping.
Proof.
  induction l as [|c l IH].
  - intros _. split_and!; [apply not_elem_of_nil|done|apply not_elem_of_nil|done].
  - cbn [forallb]. intros [Hc Hl]%andb_true_iff.
    destruct (IH Hl) as (Hsigma & Hscalar & Hlowered & Hfix).
    unfold settled_letter in Hc. apply andb_true_iff in Hc as [Hne Himage].
    apply negb_true_iff, N.eqb_neq in Hne.
    apply settled_image in Himage as (Hs & Hn & Hf).
    change ((c :: l) ≫= Lowercase_Mapping)
      with (Lowercase_Mapping c ++ l ≫= Lowercase_Mapping).
    split_and!.
    + by apply not_elem_of_cons.
    + by rewrite forallb_app, Hs, Hscalar.
    + by apply not_elem_of_app.
    + by rewrite bind_app, Hf, Hfix.
Qed.

(** Lower-casing a string that settles a second time changes nothing. *)
Lemma toLowerCase_idempotent (s : jsstring) :
  settles s = true → toLowerCase (toLowerCase s) = toLowerCase s.
Proof.
  intros Hs.
  apply settled_lower in Hs as (Hsigma & Hscalar & Hlowered & Hfix).
  rewrite (toLowerCase_sigma_free s) by done.
  unfold toLowerCase. rewrite code_points_scalars by done.
  by rewrite lower_from_sigma_free, Hfix.
Qed.

(** X12. The filter does not see the case of the search term.  Two terms
    without capital sigma whose characters agree one by one up to case
    return the same entries of any list; and a term that settles returns
    what its lower-case form returns. *)
Theorem X12_search_term_case_is_ignored
    (feeds : list App.Feed) (search search' : jsstring) :
  (SIGMA ∉ code_points search →
   SIGMA ∉ code_points search' →
   Forall2 same_letter (code_points search) (code_points search') →
   App.filteredFeeds feeds search = App.filteredFeeds feeds search')
  ∧ (settles search = true →
     App.filteredFeeds feeds (toLowerCase search)
     = App.filteredFeeds feeds search).
Proof.
  split.
  - intros Hs Hs' Hsame. unfold App.filteredFeeds.
    rewrite (toLowerCase_sigma_free search),
      (toLowerCase_sigma_free search') by done.
    by rewrite (same_letter_lower _ _ Hsame).
  - intros Hs. unfold App.filteredFeeds. by rewrite toLowerCase_idempotent.
Qed.

End CaseInsensitivity.

(** ** The directory view *)

Section DirectoryView.
Context {platform : Platform} {unicode : Unicode}.

Lemma favicon_for_nonempty (websiteUrl : jsstring) :
  favicon_for websiteUrl ≠ []
  ∧ (websiteUrl = [] → favicon_for websiteUrl = default_favicon).
Proof.
  split; [|by intros ->].
  unfold favicon_for, App.getFaviconUrl.
  destruct (truthy websiteUrl).
  - destruct (new_URL _); [done|]. cbn. by intros [_ ?]%app_eq_nil.
  - cbn. by intros [_ ?]%app_eq_nil.
Qed.

(** X13. Every published entry carries the favicon address the helper gives
    for its website URL; the address is never empty, and it is the default
    image when the row has no website. *)
Theorem X13_published_favicons
    (results : PapaParseResult) (σ : Store App.Feed) :
  Forall (λ f, ∃ favicon,
            App.favicon_url f = Some favicon
            ∧ favicon ≠ []
            ∧ App.getFaviconUrl (App.website_url f) = Normal favicon
            ∧ (App.website_url f = [] → favicon = default_favicon))
         (published (App.complete results) σ).
Proof.
  rewrite published_complete. apply list.Forall_forall. intros f Hf.
  apply published_origin in Hf as (i & row & _ & _ & ->).
  exists (favicon_for (or_else (row !! "website_url"%string) [])).
  split_and!; [done| |apply getFaviconUrl_returns|];
    apply favicon_for_nonempty.
Qed.

Lemma render_row_published (results : PapaParseResult) (σ : Store App.Feed)
    (f : App.Feed) :
  f ∈ published (App.complete results) σ →
  well_formed (App.feed_url f) = true →
  App.render_row f = Normal (shown_row f).
Proof.
  rewrite published_complete. intros Hf Hwf.
  apply published_origin in Hf as (i & row & _ & Hurl & ->).
  rewrite blank_url_column in Hurl. unfold url_column in Hurl.
  unfold App.render_row, shown_row, App.getInoreaderUrl, String_.
  cbn [App.feed_url App.id App.website_url App.feed_title App.favicon_url
       built_entry] in *.
  destruct (row !! "feed_url"%string) as [[|c u]|]; try done.
  cbn [or_else truthy] in *. rewrite encodeURIComponent_well_formed by done.
  cbn [mbind Completion_bind]. do 2 f_equal.
  by destruct (or_else (row !! "website_url"%string) []).
Qed.

(** X14. The row of a published feed: when its URL is well-formed the row is
    rendered, keyed by the feed URL, with the title as heading, the entry's
    favicon (and the default image to fall back on), a Subscribe button on
    the percent-encoded link, and a Visit button exactly when the row has a
    website URL, which it links to as written; when the URL is not
    well-formed, rendering the row throws URIError. *)
Theorem X14_row_of_published_feed
    (results : PapaParseResult) (σ : Store App.Feed) (f : App.Feed) :
  f ∈ published (App.complete results) σ →
  (well_formed (App.feed_url f) = true →
   ∃ row, App.render_row f = Normal row
     ∧ App.key row = App.feed_url f
     ∧ App.heading row = App.feed_title f
     ∧ App.img_src row = App.favicon_url f
     ∧ App.img_fallback row = default_favicon
     ∧ App.subscribe row
       = Some {| App.anchor_href :=
                   inoreader_template ++ percent_encoding (App.feed_url f);
                 App.anchor_title := lit "Subscribe to " ++ App.feed_title f
                                     ++ lit " in Inoreader" |}
     ∧ (App.visit row = None ↔ App.website_url f = [])
     ∧ (∀ a, App.visit row = Some a →
          App.anchor_href a = App.website_url f))
  ∧ (well_formed (App.feed_url f) = false →
     App.render_row f = Throw URIError).
Proof.
  intros Hf. split.
  - intros Hwf. exists (shown_row f).
    split; [by eapply render_row_published|].
    split_and!; try done; cbn [shown_row App.visit];
      destruct (App.website_url f); try done.
    by intros a [= <-].
  - intros Hwf. rewrite published_complete in Hf.
    apply published_origin in Hf as (i & row & _ & Hurl & ->).
    rewrite blank_url_column in Hurl. unfold url_column in Hurl.
    unfold App.render_row, App.getInoreaderUrl, String_.
    cbn [App.feed_url built_entry] in *.
    destruct (row !! "feed_url"%string) as [[|c u]|]; try done.
    cbn [or_else truthy] in *.
    by rewrite encodeURIComponent_ill_formed.
Qed.

Lemma map_from_members {A B} (f : A → N → Completion B) (g : A → B)
    (n : N) (l : list A) :
  (∀ x i, x ∈ l → f x i = Normal (g x)) →
  map_from f n l = Normal (g <$> l).
Proof.
  revert n. induction l as [|x l IH]; intros n Hf; [done|].
  cbn [map_from]. rewrite Hf by apply list_elem_of_here.
  cbn [mbind Completion_bind]. rewrite IH; [done|].
  intros y i Hy. apply Hf. by apply list_elem_of_further.
Qed.

(** X15. The page of a loaded directory whose feed URLs are well-formed is
    rendered for every search term: the subtitle and the footer count all
    loaded feeds, the footer shows how many pass the filter (never more),
    the "(filtered)" note is up exactly when the search box is not empty,
    and the list area holds one row per passing feed, in order and keyed by
    the feed URLs, or, when none passes, "No feeds available." for an empty
    search box and "No feeds found matching your search." otherwise.  With
    an empty search box every loaded feed has its row. *)
Theorem X15_directory_page
    (results : PapaParseResult) (σ : Store App.Feed)
    (c : Component App.Feed) :
  feeds c = published (App.complete results) σ →
  Forall (λ f, well_formed (App.feed_url f) = true) (feeds c) →
  ∃ page,
    App.directory_page c = Normal page
    ∧ App.subtitle_count page = length (feeds c)
    ∧ App.of_total page = length (feeds c)
    ∧ App.showing page
      = length (App.filteredFeeds (feeds c) (searchTerm c))
    ∧ (App.showing page ≤ App.of_total page)%nat
    ∧ App.search_value page = searchTerm c
    ∧ App.filtered_note page = truthy (searchTerm c)
    ∧ match App.filteredFeeds (feeds c) (searchTerm c) with
      | [] =>
          App.listing page
          = App.NoRows (match searchTerm c with
                        | [] => lit "No feeds available."
                        | _ :: _ => lit "No feeds found matching your search."
                        end)
      | shown =>
          App.listing page = App.Rows (shown_row <$> shown)
          ∧ App.key <$> (shown_row <$> shown) = App.feed_url <$> shown
      end
    ∧ (searchTerm c = [] →
       App.filteredFeeds (feeds c) (searchTerm c) = feeds c).
Proof.
  intros Hfeeds Hwf. unfold App.directory_page.
  set (shown := App.filteredFeeds (feeds c) (searchTerm c)).
  assert (shown `sublist_of` feeds c) as Hsub by apply sublist_filter.
  assert (Array_map (λ feed (_ : N), App.render_row feed) shown
          = Normal (shown_row <$> shown)) as Hrows.
  { apply map_from_members. intros f _ Hf.
    assert (f ∈ feeds c) as Hin by by eapply elem_of_sublist.
    apply (render_row_published results σ); [by rewrite <- Hfeeds|].
    by apply (proj1 (list.Forall_forall _ _) Hwf). }
  assert (searchTerm c = [] → shown = feeds c) as Hall.
  { intros Hs. unfold shown. rewrite Hs, Hfeeds. apply empty_search_published. }
  destruct shown as [|f shown'] eqn:Hshown.
  - eexists. split; [reflexivity|]. cbn.
    split_and!; try done; [lia|]. by destruct (searchTerm c).
  - rewrite Hrows. eexists. split; [reflexivity|]. cbn.
    split_and!; try done.
    + apply sublist_length in Hsub. cbn in Hsub. lia.
    + f_equal. rewrite <- list_fmap_compose. by apply list_fmap_ext.
Qed.

Lemma render_row_ill_formed (results : PapaParseResult) (σ : Store App.Feed)
    (f : App.Feed) :
  f ∈ published (App.complete results) σ →
  well_formed (App.feed_url f) = false →
  App.render_row f = Throw URIError.
Proof.
  rewrite published_complete. intros Hf Hwf.
  apply published_origin in Hf as (i & row & _ & Hurl & ->).
  rewrite blank_url_column in Hurl. unfold url_column in Hurl.
  unfold App.render_row, App.getInoreaderUrl, String_.
  cbn [App.feed_url built_entry] in *.
  destruct (row !! "feed_url"%string) as [[|c u]|]; try done.
  cbn [or_else truthy] in *.
  by rewrite encodeURIComponent_ill_formed.
Qed.

(** A map whose callback either returns or throws [e] throws [e] as soon
    as one element makes it throw. *)
Lemma map_from_throws {A B} (f : A → N → Completion B) (e : Thrown)
    (n : N) (l : list A) :
  (∀ x i, x ∈ l → (∃ y, f x i = Normal y) ∨ f x i = Throw e) →
  (∃ x, x ∈ l ∧ ∀ i, f x i = Throw e) →
  map_from f n l = Throw e.
Proof.
  revert n. induction l as [|a l IH]; intros n Hall (x & Hx & Hthrow).
  - by apply elem_of_nil in Hx.
  - cbn [map_from].
    destruct (Hall a n (list_elem_of_here a l)) as [[y Hy]|Ha];
      [|by rewrite Ha].
    rewrite Hy. cbn [mbind Completion_bind].
    rewrite IH; [done| |].
    + intros z i Hz. apply Hall. by apply list_elem_of_further.
    + apply elem_of_cons in Hx as [->|Hx]; [|by exists x].
      rewrite Hthrow in Hy. discriminate Hy.
Qed.

(** The third return on a view that holds published feeds: the page, when
    the feeds that pass the filter have well-formed URLs, and the URIError
    of the first row that cannot be rendered otherwise. *)
Lemma directory_page_shown (results : PapaParseResult) (σ : Store App.Feed)
    (c : Component App.Feed) :
  feeds c = published (App.complete results) σ →
  Forall (λ f, well_formed (App.feed_url f) = true)
         (App.filteredFeeds (feeds c) (searchTerm c)) →
  App.directory_page c = Normal (shown_page c).
Proof.
  intros Hfeeds Hwf. unfold App.directory_page, shown_page.
  set (shown := App.filteredFeeds (feeds c) (searchTerm c)) in *.
  assert (shown `sublist_of` feeds c) as Hsub by apply sublist_filter.
  assert (Array_map (λ feed (_ : N), App.render_row feed) shown
          = Normal (shown_row <$> shown)) as Hrows.
  { apply map_from_members. intros f _ Hf.
    assert (f ∈ feeds c) as Hin by by eapply elem_of_sublist.
    apply (render_row_published results σ); [by rewrite <- Hfeeds|].
    by apply (proj1 (list.Forall_forall _ _) Hwf). }
  destruct shown as [|f shown'] eqn:Hshown.
  - by destruct (searchTerm c).
  - rewrite Hrows. reflexivity.
Qed.

Lemma directory_page_throws (results : PapaParseResult) (σ : Store App.Feed)
    (c : Component App.Feed) :
  feeds c = published (App.complete results) σ →
  Exists (λ f, well_formed (App.feed_url f) = false)
         (App.filteredFeeds (feeds c) (searchTerm c)) →
  App.directory_page c = Throw URIError.
Proof.
  intros Hfeeds Hill. unfold App.directory_page.
  set (shown := App.filteredFeeds (feeds c) (searchTerm c)) in *.
  assert (shown `sublist_of` feeds c) as Hsub by apply sublist_filter.
  assert (Array_map (λ feed (_ : N), App.render_row feed) shown
          = Throw URIError) as Hrows.
  { apply map_from_throws.
    - intros f _ Hf.
      assert (f ∈ published (App.complete results) σ) as Hin
        by (rewrite <- Hfeeds; by eapply elem_of_sublist).
      destruct (well_formed (App.feed_url f)) eqn:Hwf.
      + left. eexists. by apply (render_row_published results σ).
      + right. by apply (render_row_ill_formed results σ).
    - apply list.Exists_exists in Hill as (f & Hf & Hwf). exists f.
      split; [done|]. intros _.
      apply (render_row_ill_formed results σ); [|done].
      rewrite <- Hfeeds. by eapply elem_of_sublist. }
  destruct shown as [|f shown'] eqn:Hshown.
  - by apply Exists_nil in Hill.
  - rewrite Hrows. reflexivity.
Qed.

(** X16. Typing into the search box changes the search term alone: it makes
    no request and leaves the feeds, the loading flag and the error as they
    were.  After a load, the page for what was typed holds the rows of the
    loaded feeds that pass the filter, when their URLs are well-formed, and
    rendering throws URIError when one of them is not; clearing the box
    afterwards gives back the view the load left. *)
Theorem X16_typing_and_clearing
    (results : PapaParseResult) (σ : Store App.Feed) (typed : jsstring) :
  (App.onChange typed σ).1 = Normal ()
  ∧ trace (App.onChange typed σ).2 = trace σ
  ∧ feeds (view (App.onChange typed σ).2) = feeds (view σ)
  ∧ loading (view (App.onChange typed σ).2) = loading (view σ)
  ∧ error (view (App.onChange typed σ).2) = error (view σ)
  ∧ searchTerm (view (App.onChange typed σ).2) = typed
  ∧ (Forall (λ f, well_formed (App.feed_url f) = true)
       (App.filteredFeeds (published (App.complete results) mounted) typed) →
     ∃ page,
       App.render
         (view (App.onChange typed (App.complete results mounted).2).2)
       = Normal (App.Directory page)
       ∧ App.search_value page = typed
       ∧ App.of_total page = length (published (App.complete results) mounted)
       ∧ App.showing page
         = length (App.filteredFeeds
                     (published (App.complete results) mounted) typed)
       ∧ App.listing page
         = match App.filteredFeeds
                   (published (App.complete results) mounted) typed with
           | [] =>
               App.NoRows
                 (match typed with
                  | [] => lit "No feeds available."
                  | _ :: _ => lit "No feeds found matching your search."
                  end)
           | f :: shown => App.Rows (shown_row <$> f :: shown)
           end)
  ∧ (Exists (λ f, well_formed (App.feed_url f) = false)
       (App.filteredFeeds (published (App.complete results) mounted) typed) →
     App.render
       (view (App.onChange typed (App.complete results mounted).2).2)
     = Throw URIError)
  ∧ view ((App.onChange typed;; App.onChange [])
            (App.complete results mounted).2).2
    = view (App.complete results mounted).2.
Proof.
  split_and!; try done.
  - intros Hwf. eexists. split.
    + unfold published, App.onChange, setSearchTerm, update in *.
      rewrite complete_runs in *. unfold App.render.
      cbn [snd view loading error feeds searchTerm mounted] in *.
      erewrite (directory_page_shown results mounted); [reflexivity|..].
      * cbn [feeds]. by rewrite published_complete.
      * done.
    + unfold shown_page. cbn [feeds searchTerm App.search_value App.of_total
                               App.showing App.listing].
      rewrite <- published_complete with (σ := mounted).
      split_and!; try done. by destruct (App.filteredFeeds _ _).
  - intros Hill.
    unfold published, App.onChange, setSearchTerm, update in *.
    rewrite complete_runs in *. unfold App.render.
    cbn [snd view loading error feeds searchTerm mounted] in *.
    rewrite (directory_page_throws results mounted); [done|..].
    + cbn [feeds]. by rewrite published_complete.
    + done.
  - unfold App.onChange, setSearchTerm, update, mbind, M_bind.
    by rewrite complete_runs.
Qed.

(** X1. In every world a load from mount ends normally with the loading flag
    down, after exactly one fetch and at most one parse, in one of two
    states.  Either there is a non-empty error message and an empty list,
    and the page is the error banner; or there is no error, and the render
    function makes the third return: the page listing every loaded feed
    when all their URLs are well-formed, a URIError thrown while the rows
    are built when one is not. *)
Theorem X1_load_settles (w : World) :
  (App.loadFeeds w mounted).1 = Normal ()
  ∧ loading (view (App.loadFeeds w mounted).2) = false
  ∧ fetches (trace (App.loadFeeds w mounted).2) = 1%nat
  ∧ (parses (trace (App.loadFeeds w mounted).2) ≤ 1)%nat
  ∧ ((∃ msg, msg ≠ []
             ∧ error (view (App.loadFeeds w mounted).2) = Some msg
             ∧ feeds (view (App.loadFeeds w mounted).2) = []
             ∧ App.render (view (App.loadFeeds w mounted).2)
               = Normal (App.ErrorBanner msg))
     ∨ (error (view (App.loadFeeds w mounted).2) = None
        ∧ (Forall (λ f, well_formed (App.feed_url f) = true)
             (feeds (view (App.loadFeeds w mounted).2)) →
           ∃ page,
             App.render (view (App.loadFeeds w mounted).2)
             = Normal (App.Directory page)
             ∧ App.of_total page
               = length (feeds (view (App.loadFeeds w mounted).2))
             ∧ App.showing page
               = length (feeds (view (App.loadFeeds w mounted).2))
             ∧ App.listing page
               = match feeds (view (App.loadFeeds w mounted).2) with
                 | [] => App.NoRows (lit "No feeds available.")
                 | f :: loaded => App.Rows (shown_row <$> f :: loaded)
                 end)
        ∧ (Exists (λ f, well_formed (App.feed_url f) = false)
             (feeds (view (App.loadFeeds w mounted).2)) →
           App.render (view (App.loadFeeds w mounted).2)
           = Throw URIError))).
Proof.
  assert (∀ e τ,
    let final : Completion () * Store App.Feed :=
      (Normal (), {| view := failed (view mounted) (load_error_message e);
                     trace := τ |}) in
    ∃ msg, msg ≠ [] ∧ error (view final.2) = Some msg
           ∧ feeds (view final.2) = []
           ∧ App.render (view final.2) = Normal (App.ErrorBanner msg))
    as Hfail.
  { intros e τ. destruct (load_error_message_nonempty e) as (c & m & Hm).
    exists (load_error_message e). split_and!; [by rewrite Hm|done|done|].
    cbn [snd view]. by rewrite Hm. }
  destruct (fetch w (BASE_URL ++ lit "feeds_deduped.csv")) as [r|e] eqn:Hf.
  2: { rewrite (fetch_rejected w mounted e) by done.
       split_and!; [done|done|reflexivity|vm_compute; lia|]. left. apply Hfail. }
  destruct (ok r) eqn:Hok.
  2: { rewrite (http_status_not_ok w mounted r) by done.
       split_and!; [done|done|reflexivity|vm_compute; lia|]. left. apply Hfail. }
  destruct (text r) as [input|e] eqn:Ht.
  2: { rewrite (body_rejected w mounted r e) by done.
       split_and!; [done|done|reflexivity|vm_compute; lia|]. left. apply Hfail. }
  destruct (Papa_parse w input) as [results|msg|e] eqn:Hp.
  - rewrite (parser_calls_complete w mounted r input results) by done.
    split_and!; [done|done|reflexivity|vm_compute; lia|]. right.
    cbn [snd view error feeds searchTerm mounted].
    set (c := {| feeds := published (App.complete results) mounted;
                 loading := false; error := None; searchTerm := [] |}).
    assert (App.filteredFeeds (feeds c) (searchTerm c)
            = published (App.complete results) mounted) as Hall
      by apply empty_search_published.
    split_and!; [done| |].
    + intros Hwf. exists (shown_page c). unfold App.render.
      cbn [loading error c].
      rewrite (directory_page_shown results mounted c) by by rewrite ?Hall.
      split; [done|]. unfold shown_page. rewrite Hall.
      cbn [App.of_total App.showing App.listing feeds searchTerm c].
      split_and!; try done. by destruct (published _ _).
    + intros Hill. unfold App.render. cbn [loading error c].
      by rewrite (directory_page_throws results mounted c) by by rewrite ?Hall.
  - rewrite (parser_calls_error w mounted r input msg) by done.
    split_and!; [done|done|reflexivity|vm_compute; lia|]. left.
    destruct (parse_error_message_nonempty msg) as (c & m & Hm).
    exists (lit "Error parsing CSV: " ++ msg).
    split_and!; [by rewrite Hm|done|done|].
    cbn [snd view]. by rewrite Hm.
  - rewrite (parser_throws w mounted r input e) by done.
    split_and!; [done|done|reflexivity|vm_compute; lia|]. left. apply Hfail.
Qed.

End DirectoryView.

(** ** The successful load *)

Section SuccessfulLoad.
Context {platform : Platform}.

(** X4. When the resource is served with an ok status, its body is read and
    the parser calls [complete], the load hands the parser exactly the body
    text and publishes the sanitised rows of [results.data], puts the
    loading flag down and leaves the error as it was; [results.errors] and
    [results.meta] play no part in what is published. *)
Theorem X4_successful_load (w : World) (σ : Store App.Feed) (r : Response)
    (input : jsstring) (results : PapaParseResult) :
  fetch w (BASE_URL ++ lit "feeds_deduped.csv") = Normal r →
  ok r = true →
  text r = Normal input →
  Papa_parse w input = CallsComplete results →
  App.loadFeeds w σ =
  (Normal (),
   {| view := {| feeds := published (App.complete results) σ;
                 loading := false;
                 error := error (view σ);
                 searchTerm := searchTerm (view σ) |};
      trace := (trace σ ++ [Fetched (BASE_URL ++ lit "feeds_deduped.csv")])
               ++ [Parsed input] |})
  ∧ (∀ reported fields,
       published (App.complete {| data := data results; errors := reported;
                                  meta := fields |}) σ
       = published (App.complete results) σ).
Proof.
  intros H Hok Ht Hp. split.
  - by apply (parser_calls_complete w σ r input results).
  - intros reported fields. by rewrite !published_complete.
Qed.

End SuccessfulLoad.

(** ** The further properties at concrete inputs *)

Lemma X2_resource_not_found :
  fetch not_found_world (lit "/feeds/feeds_deduped.csv")
  = Normal not_found_response
  ∧ ok not_found_response = false
  ∧ App.loadFeeds (platform := sample_platform) not_found_world mounted
    = (Normal (),
       {| view := {| feeds := []; loading := false;
                     error := Some (lit "Error loading or processing feeds: HTTP error! status: 404. Ensure 'feeds_deduped.csv' is accessible.");
                     searchTerm := [] |};
          trace := [Fetched (lit "/feeds/feeds_deduped.csv")] |}).
Proof.
  split; [reflexivity|]. split; [reflexivity|].
  destruct (X2_unreachable_resource (platform := sample_platform)
              not_found_world mounted) as (_ & Hstatus & _).
  exact (Hstatus not_found_response eq_refl eq_refl).
Defined.

Lemma X3_parser_reports_error :
  fetch parser_error_world (lit "/feeds/feeds_deduped.csv")
  = Normal two_rows_response
  ∧ ok two_rows_response = true
  ∧ text two_rows_response = Normal two_rows_csv
  ∧ Papa_parse parser_error_world two_rows_csv = CallsError (lit "aborted")
  ∧ App.loadFeeds (platform := sample_platform) parser_error_world mounted
    = (Normal (),
       {| view := {| feeds := []; loading := false;
                     error := Some (lit "Error parsing CSV: aborted");
                     searchTerm := [] |};
          trace := [Fetched (lit "/feeds/feeds_deduped.csv");
                    Parsed two_rows_csv] |}).
Proof.
  split; [reflexivity|]. split; [reflexivity|]. split; [reflexivity|].
  split; [reflexivity|].
  destruct (X3_parser_failure (platform := sample_platform)
              parser_error_world mounted two_rows_response two_rows_csv
              eq_refl eq_refl eq_refl) as [Herror _].
  exact (Herror (lit "aborted") eq_refl).
Defined.

Lemma X4_two_rows_loaded :
  fetch two_rows_world (lit "/feeds/feeds_deduped.csv")
  = Normal two_rows_response
  ∧ ok two_rows_response = true
  ∧ text two_rows_response = Normal two_rows_csv
  ∧ Papa_parse two_rows_world two_rows_csv = CallsComplete two_rows
  ∧ App.loadFeeds (platform := sample_platform) two_rows_world mounted
    = (Normal (),
       {| view := {| feeds := [acme_entry; other_entry]; loading := false;
                     error := None; searchTerm := [] |};
          trace := [Fetched (lit "/feeds/feeds_deduped.csv");
                    Parsed two_rows_csv] |}).
Proof.
  split; [reflexivity|]. split; [reflexivity|]. split; [reflexivity|].
  split; [reflexivity|].
  exact (proj1 (X4_successful_load (platform := sample_platform)
                  two_rows_world mounted two_rows_response two_rows_csv
                  two_rows eq_refl eq_refl eq_refl eq_refl)).
Defined.

Lemma X5_undefined_rejection :
  window_fs undefined_rejection_world = None
  ∧ fetch undefined_rejection_world (lit "/feeds_deduped.csv") = Throw Nullish
  ∧ (∃ e, (Part000.loadFeeds undefined_rejection_world mounted).1 = Throw e)
  ∧ loading (view (Part000.loadFeeds undefined_rejection_world mounted).2)
    = true
  ∧ error (view (Part000.loadFeeds undefined_rejection_world mounted).2)
    = None.
Proof.
  split; [reflexivity|]. split; [reflexivity|].
  exact (proj2 (X5_part000_load_may_stay_loading undefined_rejection_world)
           eq_refl eq_refl).
Defined.

Lemma X6_page_with_window_fs :
  window_fs window_fs_world = Some (λ _, Normal two_rows_csv)
  ∧ fetches (trace (Part000.loadFeeds window_fs_world mounted).2) = 0%nat
  ∧ file_reads (trace (Part000.loadFeeds window_fs_world mounted).2) = 1%nat
  ∧ window_fs two_rows_world = None
  ∧ fetches (trace (Part000.loadFeeds two_rows_world mounted).2) = 1%nat
  ∧ file_reads (trace (Part000.loadFeeds two_rows_world mounted).2) = 0%nat.
Proof.
  destruct (X6_part000_file_or_fetch window_fs_world mounted)
    as [Hfile _].
  destruct (Hfile (λ _, Normal two_rows_csv) eq_refl) as (Hf & Hr & _).
  destruct (X6_part000_file_or_fetch two_rows_world mounted)
    as [_ Hfetch].
  destruct (Hfetch eq_refl) as (Hf' & Hr' & _).
  split; [reflexivity|]. split; [exact Hf|]. split; [exact Hr|].
  split; [reflexivity|]. split; [exact Hf'|exact Hr'].
Defined.

Lemma X7_earlier_favicon :
  lit "https://Example.org/x" ≠ []
  ∧ Part000.getFaviconUrl (platform := sample_platform)
      (lit "https://Example.org/x")
    = Normal (Some (lit "https://external-content.duckduckgo.com/ip3/example.org.ico"))
  ∧ Part000.getFaviconUrl (platform := sample_platform) (lit "example.org")
    = Normal None
  ∧ Part000.getFaviconUrl (platform := sample_platform) [] = Normal None.
Proof.
  destruct (X7_part000_getFaviconUrl (platform := sample_platform)
              (lit "https://Example.org/x")) as (_ & _ & _ & Hok).
  destruct (X7_part000_getFaviconUrl (platform := sample_platform)
              (lit "example.org")) as (_ & _ & Hthrow & _).
  destruct (X7_part000_getFaviconUrl (platform := sample_platform) [])
    as (_ & Hempty & _ & _).
  assert (lit "https://Example.org/x" ≠ []) as Hne
    by (vm_compute; discriminate).
  split; [exact Hne|]. split_and!.
  - apply (Hok {| href := lit "https://Example.org/x";
                  hostname := lit "example.org" |}); [exact Hne|].
    vm_compute. reflexivity.
  - apply (Hthrow invalid_URL). vm_compute. reflexivity.
  - apply Hempty. reflexivity.
Defined.

Lemma X10_encoded_feed_url :
  code_unit_string (lit "http://a.com/rss")
  ∧ App.getInoreaderUrl (lit "http://a.com/rss")
    = Normal (lit "https://www.inoreader.com/search/feeds/http%3A%2F%2Fa.com%2Frss")
  ∧ ∃ encoded,
      lit "https://www.inoreader.com/search/feeds/http%3A%2F%2Fa.com%2Frss"
      = inoreader_template ++ encoded
      ∧ Forall (λ c, uri_unescaped c = true ∨ c = 37) encoded
      ∧ (Forall (λ c, uri_unescaped c = true) (lit "http://a.com/rss") →
         encoded = lit "http://a.com/rss").
Proof.
  assert (code_unit_string (lit "http://a.com/rss")) as Hunits.
  { apply (bool_decide_unpack _). vm_compute. exact I. }
  split; [exact Hunits|]. split; [reflexivity|].
  exact (X10_subscribe_link_is_url_safe (lit "http://a.com/rss")
           (lit "https://www.inoreader.com/search/feeds/http%3A%2F%2Fa.com%2Frss")
           Hunits eq_refl).
Defined.

Lemma X11_same_link_same_feed :
  well_formed (lit "http://a.com/rss") = true
  ∧ code_unit_string (lit "http://a.com/rss")
  ∧ well_formed (lit "http://a.com" ++ lit "/rss") = true
  ∧ code_unit_string (lit "http://a.com" ++ lit "/rss")
  ∧ App.getInoreaderUrl (lit "http://a.com/rss")
    = App.getInoreaderUrl (lit "http://a.com" ++ lit "/rss")
  ∧ lit "http://a.com/rss" = lit "http://a.com" ++ lit "/rss".
Proof.
  assert (code_unit_string (lit "http://a.com/rss")) as Hunits.
  { apply (bool_decide_unpack _). vm_compute. exact I. }
  assert (code_unit_string (lit "http://a.com" ++ lit "/rss")) as Hunits'.
  { apply (bool_decide_unpack _). vm_compute. exact I. }
  split; [reflexivity|]. split; [exact Hunits|].
  split; [reflexivity|]. split; [exact Hunits'|].
  split; [reflexivity|].
  exact (X11_subscribe_link_injective (lit "http://a.com/rss")
           (lit "http://a.com" ++ lit "/rss")
           eq_refl Hunits eq_refl Hunits' eq_refl).
Defined.

Lemma X12_cyrillic_capitals :
  (SIGMA ∉ code_points [0x41D; 0x41E; 0x412; 0x41E; 0x421; 0x422; 0x418])
  ∧ (SIGMA ∉ code_points [0x43D; 0x43E; 0x432; 0x43E; 0x441; 0x442; 0x438])
  ∧ Forall2 (same_letter (unicode := sample_unicode))
      (code_points [0x41D; 0x41E; 0x412; 0x41E; 0x421; 0x422; 0x418])
      (code_points [0x43D; 0x43E; 0x432; 0x43E; 0x441; 0x442; 0x438])
  ∧ settles (unicode := sample_unicode)
      [0x41D; 0x41E; 0x412; 0x41E; 0x421; 0x422; 0x418] = true
  ∧ App.filteredFeeds (unicode := sample_unicode)
      [acme_entry; novosti_entry]
      [0x43D; 0x43E; 0x432; 0x43E; 0x441; 0x442; 0x438]
    = [novosti_entry]
  ∧ App.filteredFeeds (unicode := sample_unicode)
      [acme_entry; novosti_entry]
      [0x41D; 0x41E; 0x412; 0x41E; 0x421; 0x422; 0x418]
    = App.filteredFeeds (unicode := sample_unicode)
        [acme_entry; novosti_entry]
        [0x43D; 0x43E; 0x432; 0x43E; 0x441; 0x442; 0x438]
  ∧ App.filteredFeeds (unicode := sample_unicode)
      [acme_entry; novosti_entry]
      (toLowerCase (unicode := sample_unicode)
         [0x41D; 0x41E; 0x412; 0x41E; 0x421; 0x422; 0x418])
    = App.filteredFeeds (unicode := sample_unicode)
        [acme_entry; novosti_entry]
        [0x41D; 0x41E; 0x412; 0x41E; 0x421; 0x422; 0x418].
Proof.
  assert (SIGMA ∉ code_points [0x41D; 0x41E; 0x412; 0x41E; 0x421; 0x422; 0x418])
    as Hupper.
  { apply (bool_decide_unpack _). vm_compute. exact I. }
  assert (SIGMA ∉ code_points [0x43D; 0x43E; 0x432; 0x43E; 0x441; 0x442; 0x438])
    as Hlower.
  { apply (bool_decide_unpack _). vm_compute. exact I. }
  assert (Forall2 (same_letter (unicode := sample_unicode))
            (code_points [0x41D; 0x41E; 0x412; 0x41E; 0x421; 0x422; 0x418])
            (code_points [0x43D; 0x43E; 0x432; 0x43E; 0x441; 0x442; 0x438]))
    as Hsame.
  { repeat (apply List.Forall2_cons;
              [unfold same_letter; vm_compute; reflexivity|]).
    apply List.Forall2_nil. }
  destruct (X12_search_term_case_is_ignored (unicode := sample_unicode)
              [acme_entry; novosti_entry]
              [0x41D; 0x41E; 0x412; 0x41E; 0x421; 0x422; 0x418]
              [0x43D; 0x43E; 0x432; 0x43E; 0x441; 0x442; 0x438])
    as [Hletters Hlowered].
  split; [exact Hupper|]. split; [exact Hlower|]. split; [exact Hsame|].
  split; [reflexivity|]. split; [reflexivity|].
  split; [exact (Hletters Hupper Hlower Hsame)|exact (Hlowered eq_refl)].
Defined.

Lemma X14_acme_row :
  acme_entry
  ∈ published (App.complete (platform := sample_platform) two_rows) mounted
  ∧ well_formed (App.feed_url acme_entry) = true
  ∧ ∃ row,
      App.render_row (platform := sample_platform) acme_entry = Normal row
      ∧ App.key row = lit "http://a.com/rss"
      ∧ App.heading row = lit "ACME News"
      ∧ App.img_src row = App.favicon_url acme_entry
      ∧ App.img_fallback row = lit "/feeds/default-favicon.png"
      ∧ App.subscribe row
        = Some {| App.anchor_href :=
                    lit "https://www.inoreader.com/search/feeds/http%3A%2F%2Fa.com%2Frss";
                  App.anchor_title :=
                    lit "Subscribe to ACME News in Inoreader" |}.
Proof.
  assert (acme_entry
          ∈ published (App.complete (platform := sample_platform) two_rows)
              mounted) as Hin.
  { change (acme_entry ∈ [acme_entry; other_entry]). apply list_elem_of_here. }
  split; [exact Hin|]. split; [reflexivity|].
  destruct (X14_row_of_published_feed (platform := sample_platform)
              two_rows mounted acme_entry Hin) as [Hrow _].
  destruct (Hrow eq_refl)
    as (row & Hrender & Hkey & Hheading & Hsrc & Hfallback & Hsub & _).
  exists row. split; [exact Hrender|]. split; [exact Hkey|].
  split; [exact Hheading|]. split; [exact Hsrc|].
  split; [exact Hfallback|exact Hsub].
Defined.

Lemma X15_acme_search_page :
  feeds acme_search_view
  = published (App.complete (platform := sample_platform) two_rows) mounted
  ∧ Forall (λ f, well_formed (App.feed_url f) = true) (feeds acme_search_view)
  ∧ ∃ page,
      App.directory_page (platform := sample_platform)
        (unicode := sample_unicode) acme_search_view
      = Normal page
      ∧ App.subtitle_count page = 2%nat
      ∧ App.showing page = 1%nat
      ∧ App.of_total page = 2%nat
      ∧ App.filtered_note page = true
      ∧ App.listing page
        = App.Rows [shown_row (platform := sample_platform) acme_entry].
Proof.
  assert (Forall (λ f, well_formed (App.feed_url f) = true)
            (feeds acme_search_view)) as Hwf.
  { apply List.Forall_cons; [reflexivity|].
    apply List.Forall_cons; [reflexivity|]. apply List.Forall_nil. }
  split; [reflexivity|]. split; [exact Hwf|].
  destruct (X15_directory_page (platform := sample_platform)
              (unicode := sample_unicode)
              two_rows mounted acme_search_view eq_refl Hwf)
    as (page & Hpage & Hcount & Htotal & Hshowing & _ & _ & Hnote & Hlisting
        & _).
  exists page. split; [exact Hpage|]. split; [exact Hcount|].
  split; [exact Hshowing|]. split; [exact Htotal|].
  split; [exact Hnote|exact (proj1 Hlisting)].
Defined.

Lemma X16_typing_acme :
  Forall (λ f, well_formed (App.feed_url f) = true)
    (App.filteredFeeds (unicode := sample_unicode)
       (published (App.complete (platform := sample_platform) two_rows)
          mounted)
       (lit "acme"))
  ∧ ∃ page,
      App.render (platform := sample_platform) (unicode := sample_unicode)
        (view (App.onChange (lit "acme")
                 (App.complete (platform := sample_platform) two_rows
                    mounted).2).2)
      = Normal (App.Directory page)
      ∧ App.search_value page = lit "acme"
      ∧ App.of_total page = 2%nat
      ∧ App.showing page = 1%nat
      ∧ App.listing page
        = App.Rows [shown_row (platform := sample_platform) acme_entry].
Proof.
  assert (Forall (λ f, well_formed (App.feed_url f) = true)
            (App.filteredFeeds (unicode := sample_unicode)
               (published (App.complete (platform := sample_platform)
                             two_rows) mounted)
               (lit "acme"))) as Hwf.
  { apply List.Forall_cons; [reflexivity|]. apply List.Forall_nil. }
  split; [exact Hwf|].
  destruct (X16_typing_and_clearing (platform := sample_platform)
              (unicode := sample_unicode) two_rows mounted (lit "acme"))
    as (_ & _ & _ & _ & _ & _ & Hpage & _).
  destruct (Hpage Hwf) as (page & Hrender & Hvalue & Htotal & Hshowing
                           & Hlisting).
  exists page. split; [exact Hrender|]. split; [exact Hvalue|].
  split; [exact Htotal|]. split; [exact Hshowing|exact Hlisting].
Defined.

Lemma X1_served_directories :
  (Forall (λ f, well_formed (App.feed_url f) = true)
     (feeds (view (App.loadFeeds (platform := sample_platform)
                     two_rows_world mounted).2))
   ∧ ∃ page,
       App.render (platform := sample_platform) (unicode := sample_unicode)
         (view (App.loadFeeds (platform := sample_platform)
                  two_rows_world mounted).2)
       = Normal (App.Directory page)
       ∧ App.of_total page = 2%nat
       ∧ App.showing page = 2%nat
       ∧ App.listing page
         = App.Rows [shown_row (platform := sample_platform) acme_entry;
                     shown_row (platform := sample_platform) other_entry])
  ∧ (Exists (λ f, well_formed (App.feed_url f) = false)
       (feeds (view (App.loadFeeds (platform := sample_platform)
                       lone_surrogate_world mounted).2))
     ∧ App.render (platform := sample_platform) (unicode := sample_unicode)
         (view (App.loadFeeds (platform := sample_platform)
                  lone_surrogate_world mounted).2)
       = Throw URIError).
Proof.
  split.
  - assert (Forall (λ f, well_formed (App.feed_url f) = true)
              (feeds (view (App.loadFeeds (platform := sample_platform)
                              two_rows_world mounted).2))) as Hwf.
    { apply List.Forall_cons; [reflexivity|].
      apply List.Forall_cons; [reflexivity|]. apply List.Forall_nil. }
    split; [exact Hwf|].
    destruct (X1_load_settles (platform := sample_platform)
                (unicode := sample_unicode) two_rows_world)
      as (_ & _ & _ & _ & [(msg & _ & Herror & _)|(_ & Hpage & _)]).
    + discriminate Herror.
    + destruct (Hpage Hwf) as (page & Hrender & Htotal & Hshowing & Hlisting).
      exists page. split; [exact Hrender|]. split; [exact Htotal|].
      split; [exact Hshowing|exact Hlisting].
  - assert (Exists (λ f, well_formed (App.feed_url f) = false)
              (feeds (view (App.loadFeeds (platform := sample_platform)
                              lone_surrogate_world mounted).2))) as Hill.
    { apply List.Exists_cons_tl, List.Exists_cons_hd. reflexivity. }
    split; [exact Hill|].
    destruct (X1_load_settles (platform := sample_platform)
                (unicode := sample_unicode) lone_surrogate_world)
      as (_ & _ & _ & _ & [(msg & _ & Herror & _)|(_ & _ & Hthrow)]).
    + discriminate Herror.
    + exact (Hthrow Hill).
Defined.
